(** * Black-Hole-Model: the lensing renderer of [model.py]

    A shallow embedding of [BlackHolePhysics] and
    [GravitationalLensingAnimation] and of the per-frame pipeline of
    [animate], with the properties of the specification stated on it.

    Numbers.  The program computes on IEEE doubles through numpy.  A value
    is modelled by [fval]: a finite real, one of the two infinities, or
    NaN.  Arithmetic on finite values is exact (rounding, overflow and
    underflow are not modelled); the special values follow the IEEE rules
    numpy applies (x/0 is an infinity or NaN, inf*0 is NaN, NaN propagates,
    comparisons with NaN are false).  Zero is unsigned and divides like +0.
    Where a statement would depend on what is not modelled, it says so:
    magnitudes are kept within [magnitude_limit], and the lookup of
    [calculate_lensed_image] is proved for any index the rounding may
    yield.

    Arrays.  A 2-d numpy array is a list of rows.  Reading one cell can
    raise [IndexError] and wraps negative indices, as in Python.

    Objects.  Methods of [GravitationalLensingAnimation] are computations
    in a state-and-error monad over the object. *)

From Stdlib Require Import Reals Lra Lia ZArith List Bool.
From stdpp Require Import base list.
Import ListNotations.

Local Open Scope R_scope.

(* ===================================================================== *)
(** ** Floating-point values *)
(* ===================================================================== *)

Inductive fval : Type :=
| Fin (r : R)
| PInf
| NInf
| NaN.

Module F.

(** Sign of a finite value, used where an infinity takes the sign of a
    finite operand: [None] for zero. *)
Definition sign_pos (a : R) : option bool :=
  if Rlt_dec 0 a then Some true
  else if Rlt_dec a 0 then Some false
  else None.

Definition inf_of (positive : bool) : fval :=
  if positive then PInf else NInf.

Definition neg (x : fval) : fval :=
  match x with
  | Fin a => Fin (- a)
  | PInf => NInf
  | NInf => PInf
  | NaN => NaN
  end.

Definition add (x y : fval) : fval :=
  match x, y with
  | NaN, _ | _, NaN => NaN
  | Fin a, Fin b => Fin (a + b)
  | PInf, NInf | NInf, PInf => NaN
  | PInf, _ | _, PInf => PInf
  | NInf, _ | _, NInf => NInf
  end.

Definition sub (x y : fval) : fval := add x (neg y).

(** [inf * a] for a finite [a]. *)
Definition mul_inf (positive : bool) (a : R) : fval :=
  match sign_pos a with
  | Some s => inf_of (Bool.eqb positive s)
  | None => NaN
  end.

Definition mul (x y : fval) : fval :=
  match x, y with
  | NaN, _ | _, NaN => NaN
  | Fin a, Fin b => Fin (a * b)
  | PInf, Fin a | Fin a, PInf => mul_inf true a
  | NInf, Fin a | Fin a, NInf => mul_inf false a
  | PInf, PInf | NInf, NInf => PInf
  | PInf, NInf | NInf, PInf => NInf
  end.

(** numpy's true division on doubles: no exception, a zero divisor gives
    an infinity (NaN for 0/0). *)
Definition div (x y : fval) : fval :=
  match x, y with
  | NaN, _ | _, NaN => NaN
  | Fin a, Fin b =>
      if Req_dec_T b 0 then
        match sign_pos a with
        | Some s => inf_of s
        | None => NaN
        end
      else Fin (a / b)
  | Fin _, (PInf | NInf) => Fin 0
  | PInf, Fin b => inf_of (if Rlt_dec b 0 then false else true)
  | NInf, Fin b => inf_of (if Rlt_dec b 0 then true else false)
  | (PInf | NInf), (PInf | NInf) => NaN
  end.

(** [x ** n] for a literal exponent [n >= 1]. *)
Definition pow (x : fval) (n : nat) : fval :=
  match x with
  | Fin a => Fin (a ^ n)
  | PInf => PInf
  | NInf => if Nat.even n then PInf else NInf
  | NaN => NaN
  end.

Definition sqrt (x : fval) : fval :=
  match x with
  | Fin a => if Rlt_dec a 0 then NaN else Fin (R_sqrt.sqrt a)
  | PInf => PInf
  | NInf | NaN => NaN
  end.

Definition sin (x : fval) : fval :=
  match x with Fin a => Fin (Rtrigo_def.sin a) | _ => NaN end.

Definition cos (x : fval) : fval :=
  match x with Fin a => Fin (Rtrigo_def.cos a) | _ => NaN end.

Definition exp (x : fval) : fval :=
  match x with
  | Fin a => Fin (Rtrigo_def.exp a)
  | PInf => PInf
  | NInf => Fin 0
  | NaN => NaN
  end.

Definition abs (x : fval) : fval :=
  match x with
  | Fin a => Fin (Rabs a)
  | PInf | NInf => PInf
  | NaN => NaN
  end.

(** Comparisons: false as soon as one side is NaN. *)
Definition ltb (x y : fval) : bool :=
  match x, y with
  | NaN, _ | _, NaN => false
  | Fin a, Fin b => if Rlt_dec a b then true else false
  | NInf, (Fin _ | PInf) => true
  | Fin _, PInf => true
  | _, _ => false
  end.

Definition leb (x y : fval) : bool :=
  match x, y with
  | NaN, _ | _, NaN => false
  | Fin a, Fin b => if Rle_dec a b then true else false
  | NInf, _ => true
  | _, PInf => true
  | _, _ => false
  end.

Definition gtb (x y : fval) : bool := ltb y x.

(** [np.maximum] and [np.minimum]: NaN propagates. *)
Definition maximum (x y : fval) : fval :=
  match x, y with
  | NaN, _ | _, NaN => NaN
  | _, _ => if ltb x y then y else x
  end.

Definition minimum (x y : fval) : fval :=
  match x, y with
  | NaN, _ | _, NaN => NaN
  | _, _ => if ltb y x then y else x
  end.

(** [np.clip(x, lo, hi)] is [minimum(maximum(x, lo), hi)]. *)
Definition clip (x lo hi : fval) : fval := minimum (maximum x lo) hi.

(** [np.arctan2(y, x)], with the C library's values at the infinities. *)
Definition arctan2 (y x : fval) : fval :=
  match y, x with
  | NaN, _ | _, NaN => NaN
  | Fin b, Fin a =>
      if Rlt_dec 0 a then Fin (atan (b / a))
      else if Rlt_dec a 0 then
        if Rlt_dec b 0 then Fin (atan (b / a) - PI)
        else Fin (atan (b / a) + PI)
      else
        if Rlt_dec 0 b then Fin (PI / 2)
        else if Rlt_dec b 0 then Fin (- (PI / 2))
        else Fin 0
  | Fin _, PInf => Fin 0
  | Fin b, NInf => if Rlt_dec b 0 then Fin (- PI) else Fin PI
  | PInf, Fin _ => Fin (PI / 2)
  | NInf, Fin _ => Fin (- (PI / 2))
  | PInf, PInf => Fin (PI / 4)
  | PInf, NInf => Fin (3 * PI / 4)
  | NInf, PInf => Fin (- (PI / 4))
  | NInf, NInf => Fin (- (3 * PI / 4))
  end.

End F.

Declare Scope fval_scope.
Delimit Scope fval_scope with fv.
Bind Scope fval_scope with fval.
Infix "+" := F.add : fval_scope.
Infix "-" := F.sub : fval_scope.
Infix "*" := F.mul : fval_scope.
Infix "/" := F.div : fval_scope.
Notation "- x" := (F.neg x) : fval_scope.
Infix "**" := F.pow (at level 30, right associativity) : fval_scope.

(** A Python number literal. *)
Coercion Fin : R >-> fval.


(* ===================================================================== *)
(** ** Exceptions and arrays *)
(* ===================================================================== *)

Inductive exn : Type := IndexError | ValueError | OverflowError.

Inductive result (A : Type) : Type :=
| Ok (v : A)
| Raise (e : exn).
Arguments Ok {A} v.
Arguments Raise {A} e.

Abbreviation ndarray := (list (list fval)).

Module Np.

(** A Python index into a sequence of length [len]: negative indices
    count from the end, anything else out of range has no position. *)
Definition norm_index (len : nat) (i : Z) : option nat :=
  if ((0 <=? i) && (i <? Z.of_nat len))%Z then Some (Z.to_nat i)
  else if ((- Z.of_nat len <=? i) && (i <? 0))%Z
       then Some (Z.to_nat (Z.of_nat len + i))
       else None.

Definition getitem {A} (l : list A) (i : Z) : result A :=
  match norm_index (length l) i with
  | Some k => match l !! k with Some v => Ok v | None => Raise IndexError end
  | None => Raise IndexError
  end.

Definition setitem {A} (l : list A) (i : Z) (v : A) : result (list A) :=
  match norm_index (length l) i with
  | Some k => Ok (<[k := v]> l)
  | None => Raise IndexError
  end.

(** [a[i, j]] *)
Definition getitem2 (a : ndarray) (i j : Z) : result fval :=
  match getitem a i with
  | Ok row => getitem row j
  | Raise e => Raise e
  end.

(** [a[i, j] = v] *)
Definition setitem2 (a : ndarray) (i j : Z) (v : fval) : result ndarray :=
  match getitem a i with
  | Ok row =>
      match setitem row j v with
      | Ok row' => setitem a i row'
      | Raise e => Raise e
      end
  | Raise e => Raise e
  end.

(** Elementwise operations.  Every pair of operands in the program has
    the shape of [self.X]. *)
Definition map2d {A B} (f : A -> B) (a : list (list A)) : list (list B) :=
  fmap (M := list) (fmap (M := list) f) a.

Definition zip2d {A B C} (f : A -> B -> C)
    (a : list (list A)) (b : list (list B)) : list (list C) :=
  zip_with (zip_with f) a b.

Definition add (a b : ndarray) : ndarray := zip2d F.add a b.
Definition sub (a b : ndarray) : ndarray := zip2d F.sub a b.
Definition mul (a b : ndarray) : ndarray := zip2d F.mul a b.
(** array op scalar, scalar op array *)
Definition sadd (k : fval) (a : ndarray) : ndarray := map2d (F.add k) a.
Definition adds (a : ndarray) (k : fval) : ndarray := map2d (fun x => F.add x k) a.
Definition subs (a : ndarray) (k : fval) : ndarray := map2d (fun x => F.sub x k) a.
Definition smul (k : fval) (a : ndarray) : ndarray := map2d (F.mul k) a.
Definition muls (a : ndarray) (k : fval) : ndarray := map2d (fun x => F.mul x k) a.
Definition sdiv (k : fval) (a : ndarray) : ndarray := map2d (F.div k) a.
Definition divs (a : ndarray) (k : fval) : ndarray := map2d (fun x => F.div x k) a.
Definition gts (a : ndarray) (k : fval) : list (list bool) :=
  map2d (fun x => F.gtb x k) a.
Definition les (a : ndarray) (k : fval) : list (list bool) :=
  map2d (fun x => F.leb x k) a.
Definition neg (a : ndarray) : ndarray := map2d F.neg a.
Definition pow (a : ndarray) (n : nat) : ndarray := map2d (fun x => F.pow x n) a.
Definition sqrt (a : ndarray) : ndarray := map2d F.sqrt a.
Definition sin (a : ndarray) : ndarray := map2d F.sin a.
Definition cos (a : ndarray) : ndarray := map2d F.cos a.
Definition exp (a : ndarray) : ndarray := map2d F.exp a.
Definition abs (a : ndarray) : ndarray := map2d F.abs a.
Definition arctan2 (a b : ndarray) : ndarray := zip2d F.arctan2 a b.
Definition clip (a : ndarray) (lo hi : fval) : ndarray :=
  map2d (fun x => F.clip x lo hi) a.
Definition zeros_like (a : ndarray) : ndarray := map2d (fun _ => Fin 0) a.

(** [np.where(cond, a, b)] with a scalar [b]. *)
Definition where_ (cond : list (list bool)) (a : ndarray) (b : fval) : ndarray :=
  zip2d (fun (t : bool) x => if t then x else b) cond a.

(** [a[mask] = v] *)
Definition mask_assign (a : ndarray) (mask : list (list bool)) (v : fval) : ndarray :=
  zip2d (fun x (t : bool) => if t then v else x) a mask.

(** [np.linspace(start, stop, num)]: [num] samples, end point included;
    a negative [num] raises [ValueError]. *)
Definition linspace (start stop : fval) (num : Z) : result (list fval) :=
  if (num <? 0)%Z then Raise ValueError
  else
    let div := (num - 1)%Z in
    let delta := F.sub stop start in
    let step := F.div delta (Fin (IZR div)) in
    let y : list fval :=
      (fun i : nat => Fin (INR i)) <$> seq 0 (Z.to_nat num) in
    let y : list fval :=
      if (0 <? div)%Z then (fun v => F.mul v step) <$> y
      else (fun v => F.mul v delta) <$> y in
    let y : list fval := (fun v => F.add v start) <$> y in
    Ok (if (1 <? num)%Z then <[Z.to_nat div := stop]> y else y).

(** [np.meshgrid(x, y)] *)
Definition meshgrid (x y : list fval) : ndarray * ndarray :=
  (fmap (M := list) (fun _ => x) y,
   fmap (M := list) (fun yi => fmap (M := list) (fun _ => yi) x) y).

(** [int(v)] on a double: truncation toward zero. *)
Definition trunc (r : R) : Z :=
  if Rle_dec 0 r then Int_part r else (- Int_part (- r))%Z.

Definition int (v : fval) : result Z :=
  match v with
  | Fin r => Ok (trunc r)
  | PInf | NInf => Raise OverflowError
  | NaN => Raise ValueError
  end.

End Np.

(** The cell of a 2-d array at a position inside it. *)
Definition cell {A} (a : list (list A)) (i j : nat) : option A :=
  match a !! i with
  | Some row => row !! j
  | None => None
  end.

(** The array with one cell replaced. *)
Definition update2 {A} (a : list (list A)) (i j : nat) (v : A) : list (list A) :=
  match a !! i with
  | Some row => <[i := <[j := v]> row]> a
  | None => a
  end.

(** An array of [n] rows of [m] cells. *)
Definition shape {A} (a : list (list A)) (n m : nat) : Prop :=
  length a = n /\ Forall (fun row => length row = m) a.

(* ===================================================================== *)
(** ** class BlackHolePhysics *)
(* ===================================================================== *)

(** The methods are written for one point; the renderer calls them on
    whole arrays and numpy applies them cell by cell.  Their operands are
    numpy doubles (at least [np.sqrt] or an array is involved in every
    division), so a zero divisor gives an infinity or NaN, with a warning,
    and no exception. *)
Module BlackHolePhysics.

Record t : Type := mk {
  M : fval;     (* mass *)
  a : fval;     (* spin * mass *)
  rs : fval;    (* event horizon radius *)
  c : fval      (* speed of light *)
}.

Definition init (mass spin : fval) : t :=
  let M_ := mass in
  {| M := M_;
     a := (spin * mass)%fv;
     rs := (Fin 2 * M_)%fv;
     c := Fin 1 |}.

Definition schwarzschild_metric_effects (self : t) (r : fval) : fval * fval :=
  let time_dilation :=
    F.sqrt (F.maximum (Fin 1 - rs self / r) (Fin 0.01))%fv in
  let spatial_curvature :=
    (Fin 1 / F.maximum (Fin 1 - rs self / r) (Fin 0.01))%fv in
  (time_dilation, spatial_curvature).

Definition gravitational_lensing (self : t) (x y : fval) : fval * fval :=
  let r := F.sqrt (x ** 2 + y ** 2)%fv in
  let r := F.maximum r (Fin 0.1) in
  let deflection_strength := (Fin 4 * M self / r)%fv in
  let cos_theta := (x / r)%fv in
  let sin_theta := (y / r)%fv in
  let deflection_x := (- deflection_strength * sin_theta)%fv in
  let deflection_y := (deflection_strength * cos_theta)%fv in
  (deflection_x, deflection_y).

Definition doppler_shift (self : t) (x y rotation_angle : fval) : fval :=
  let r := F.sqrt (x ** 2 + y ** 2)%fv in
  let omega_drag :=
    (Fin 2 * M self * a self / (r ** 3 + a self ** 2 * r))%fv in
  let phi := F.arctan2 y x in
  let v_phi := (omega_drag * r)%fv in
  let doppler_factor :=
    (Fin 1 / (Fin 1 + v_phi * F.sin (phi + rotation_angle)))%fv in
  F.clip doppler_factor (Fin 0.3) (Fin 2).

(** The same methods called on arrays: numpy applies them cell by cell. *)
Definition schwarzschild_metric_effects_nd (self : t) (r : ndarray)
  : ndarray * ndarray :=
  (Np.map2d (fun v => fst (schwarzschild_metric_effects self v)) r,
   Np.map2d (fun v => snd (schwarzschild_metric_effects self v)) r).

Definition gravitational_lensing_nd (self : t) (x y : ndarray)
  : ndarray * ndarray :=
  (Np.zip2d (fun u v => fst (gravitational_lensing self u v)) x y,
   Np.zip2d (fun u v => snd (gravitational_lensing self u v)) x y).

Definition doppler_shift_nd (self : t) (x y : ndarray) (rotation_angle : fval)
  : ndarray :=
  Np.zip2d (fun u v => doppler_shift self u v rotation_angle) x y.

End BlackHolePhysics.

(* ===================================================================== *)
(** ** Methods: state of the object, and exceptions *)
(* ===================================================================== *)

Definition Method (S A : Type) : Type := S -> result (A * S).

Module Method.

Definition ret {S A} (v : A) : Method S A := fun s => Ok (v, s).

Definition bind {S A B} (m : Method S A) (k : A -> Method S B) : Method S B :=
  fun s =>
    match m s with
    | Ok (v, s') => k v s'
    | Raise e => Raise e
    end.

Definition get {S} : Method S S := fun s => Ok (s, s).

Definition put {S} (s' : S) : Method S unit := fun _ => Ok (tt, s').

Definition lift {S A} (r : result A) : Method S A :=
  fun s => match r with Ok v => Ok (v, s) | Raise e => Raise e end.

(** [for k in range(n): acc = body(k, acc)] *)
Fixpoint for_each {S A} (ks : list nat) (body : nat -> A -> Method S A)
    (acc : A) : Method S A :=
  match ks with
  | [] => ret acc
  | k :: ks' => bind (body k acc) (for_each ks' body)
  end.

Definition for_range {S A} (n : Z) (body : nat -> A -> Method S A)
    (acc : A) : Method S A :=
  for_each (seq 0 (Z.to_nat n)) body acc.

End Method.

Notation "x <~ m ; k" := (Method.bind m (fun x => k))
  (at level 20, m at level 100, k at level 200, only parsing).
Notation "'exec' m ; k" := (Method.bind m (fun _ => k))
  (at level 20, m at level 100, k at level 200, only parsing).

(* ===================================================================== *)
(** ** class GravitationalLensingAnimation *)
(* ===================================================================== *)

Module GravitationalLensingAnimation.

Record t : Type := mk {
  black_hole : BlackHolePhysics.t;
  grid_size : Z;
  X : ndarray;
  Y : ndarray;
  R : ndarray;
  background : ndarray
}.

(** [self.X, self.Y = ...], [self.R = ...], [self.background = ...] *)
Definition set_XY (vx vy : ndarray) : Method t unit :=
  self <~ Method.get ;
  Method.put {| black_hole := black_hole self; grid_size := grid_size self;
                X := vx; Y := vy; R := R self;
                background := background self |}.

Definition set_R (v : ndarray) : Method t unit :=
  self <~ Method.get ;
  Method.put {| black_hole := black_hole self; grid_size := grid_size self;
                X := X self; Y := Y self; R := v;
                background := background self |}.

Definition set_background (v : ndarray) : Method t unit :=
  self <~ Method.get ;
  Method.put {| black_hole := black_hole self; grid_size := grid_size self;
                X := X self; Y := Y self; R := R self;
                background := v |}.

Definition setup_coordinates : Method t unit :=
  self <~ Method.get ;
  let extent := Fin 8 in
  x <~ Method.lift (Np.linspace (- extent)%fv extent (grid_size self)) ;
  y <~ Method.lift (Np.linspace (- extent)%fv extent (grid_size self)) ;
  let '(vx, vy) := Np.meshgrid x y in
  exec set_XY vx vy ;
  self <~ Method.get ;
  set_R (Np.sqrt (Np.add (Np.pow (X self) 2) (Np.pow (Y self) 2))).

Definition create_background_pattern : Method t unit :=
  self <~ Method.get ;
  let grid_freq := Fin 8 in
  let pattern1 :=
    Np.mul (Np.sin (Np.muls (X self) grid_freq))
           (Np.sin (Np.muls (Y self) grid_freq)) in
  let pattern2 :=
    Np.mul (Np.sin (Np.muls (Np.muls (X self) grid_freq) (Fin 0.7)))
           (Np.cos (Np.muls (Np.muls (Y self) grid_freq) (Fin 1.3))) in
  exec set_background
    (Np.add (Np.sadd (Fin 0.5) (Np.smul (Fin 0.3) pattern1))
            (Np.smul (Fin 0.2) pattern2)) ;
  self <~ Method.get ;
  let radial_pattern :=
    Np.mul (Np.sin (Np.muls (R self) (Fin 2)))
           (Np.exp (Np.divs (Np.neg (R self)) (Fin 10))) in
  set_background (Np.add (background self) (Np.smul (Fin 0.2) radial_pattern)).

(** [__init__]: attributes not assigned yet are empty arrays. *)
Definition init (grid_size : Z) : result t :=
  let self :=
    {| black_hole := BlackHolePhysics.init (Fin 2) (Fin 0.8);
       grid_size := grid_size;
       X := []; Y := []; R := []; background := [] |} in
  match (exec setup_coordinates ; create_background_pattern) self with
  | Ok (_, self') => Ok self'
  | Raise e => Raise e
  end.

(** The body of the two nested loops of [calculate_lensed_image], for the
    pixel [(i, j)]; [continue] ends the body. *)
Definition lensed_pixel (source_x source_y : ndarray) (i j : nat)
    (lensed_image : ndarray) : Method t ndarray :=
  self <~ Method.get ;
  sx <~ Method.lift (Np.getitem2 source_x (Z.of_nat i) (Z.of_nat j)) ;
  sy <~ Method.lift (Np.getitem2 source_y (Z.of_nat i) (Z.of_nat j)) ;
  r <~ Method.lift (Np.getitem2 (R self) (Z.of_nat i) (Z.of_nat j)) ;
  if F.ltb r (BlackHolePhysics.rs (black_hole self) * Fin 1.1)%fv then
    Method.lift (Np.setitem2 lensed_image (Z.of_nat i) (Z.of_nat j) (Fin 0))
  else if F.ltb (F.abs sx) (Fin 8) && F.ltb (F.abs sy) (Fin 8) then
    grid_x <~ Method.lift
      (Np.int ((sx + Fin 8) * Fin (IZR (grid_size self)) / Fin 16)%fv) ;
    grid_y <~ Method.lift
      (Np.int ((sy + Fin 8) * Fin (IZR (grid_size self)) / Fin 16)%fv) ;
    if ((0 <=? grid_x) && (grid_x <? grid_size self)
        && ((0 <=? grid_y) && (grid_y <? grid_size self)))%Z then
      v <~ Method.lift (Np.getitem2 (background self) grid_y grid_x) ;
      Method.lift (Np.setitem2 lensed_image (Z.of_nat i) (Z.of_nat j) v)
    else Method.ret lensed_image
  else Method.ret lensed_image.

Definition calculate_lensed_image (rotation_angle : fval) : Method t ndarray :=
  self <~ Method.get ;
  let lensed_image := Np.zeros_like (X self) in
  let '(deflection_x, deflection_y) :=
    BlackHolePhysics.gravitational_lensing_nd (black_hole self) (X self) (Y self) in
  let cos_rot := F.cos rotation_angle in
  let sin_rot := F.sin rotation_angle in
  let deflection_x_rot :=
    Np.sub (Np.muls deflection_x cos_rot) (Np.muls deflection_y sin_rot) in
  let deflection_y_rot :=
    Np.add (Np.muls deflection_x sin_rot) (Np.muls deflection_y cos_rot) in
  let source_x := Np.add (X self) deflection_x_rot in
  let source_y := Np.add (Y self) deflection_y_rot in
  Method.for_range (grid_size self) (fun i =>
    Method.for_range (grid_size self) (fun j =>
      lensed_pixel source_x source_y i j)) lensed_image.

Definition apply_relativistic_effects (image : ndarray) (rotation_angle : fval)
  : Method t ndarray :=
  self <~ Method.get ;
  let '(time_dilation, _) :=
    BlackHolePhysics.schwarzschild_metric_effects_nd (black_hole self) (R self) in
  let doppler_factor :=
    BlackHolePhysics.doppler_shift_nd (black_hole self) (X self) (Y self)
      rotation_angle in
  let relativistic_image := Np.mul (Np.mul image time_dilation) doppler_factor in
  let brightening :=
    Np.where_
      (Np.gts (R self) (BlackHolePhysics.rs (black_hole self)))
      (Np.sadd (Fin 1)
         (Np.sdiv (Fin 2 * BlackHolePhysics.M (black_hole self))%fv
                  (Np.pow (R self) 2)))
      (Fin 1) in
  let relativistic_image := Np.mul relativistic_image brightening in
  Method.ret (Np.clip relativistic_image (Fin 0) (Fin 2)).

Definition create_photon_sphere_glow (rotation_angle : fval) : Method t ndarray :=
  self <~ Method.get ;
  let photon_radius := (Fin 1.5 * BlackHolePhysics.rs (black_hole self))%fv in
  let ring_distance := Np.abs (Np.subs (R self) photon_radius) in
  let ring_intensity :=
    Np.muls (Np.exp (Np.divs (Np.neg (Np.pow ring_distance 2)) (Fin 0.5)))
            (Fin 2) in
  let phi := Np.arctan2 (Y self) (X self) in
  let rotation_pattern :=
    Np.sadd (Fin 1)
      (Np.smul (Fin 0.5)
         (Np.sin (Np.adds (Np.smul (Fin 3) phi) (rotation_angle * Fin 4)%fv))) in
  Method.ret (Np.mul ring_intensity rotation_pattern).

End GravitationalLensingAnimation.

(* ===================================================================== *)
(** ** The frame computed by [animate] *)
(* ===================================================================== *)

Module GLA := GravitationalLensingAnimation.

(** Lines 158-165 of [animate]: the image handed to [imshow]. *)
Definition render_frame (rotation_angle : fval) : Method GLA.t ndarray :=
  lensed_image <~ GLA.calculate_lensed_image rotation_angle ;
  relativistic_image <~
    GLA.apply_relativistic_effects lensed_image rotation_angle ;
  photon_glow <~ GLA.create_photon_sphere_glow rotation_angle ;
  let final_image := Np.add relativistic_image photon_glow in
  lensing_sim <~ Method.get ;
  let final_image :=
    Np.mask_assign final_image
      (Np.les (GLA.R lensing_sim) (BlackHolePhysics.rs (GLA.black_hole lensing_sim)))
      (Fin 0) in
  Method.ret final_image.


(** [create_physics_animation] builds the renderer with [grid_size=200]. *)
Definition create_physics_animation : result GLA.t := GLA.init 200.

(* ===================================================================== *)
(** ** Notions used in the statements *)
(* ===================================================================== *)

(** Length of a deflection vector, computed as the program would. *)
Definition magnitude (d : fval * fval) : fval :=
  F.sqrt (fst d ** 2 + snd d ** 2)%fv.

(** Radius of a point of the plane. *)
Definition radius (x y : R) : R := sqrt (x ^ 2 + y ^ 2).

(** [timeDilation] as the specification writes it. *)
Definition time_dilation_formula (rs r : R) : R :=
  sqrt (Rmax (1 - rs / r) 0.01).

(** The state of a renderer: a grid size and four arrays of that size. *)
Definition well_formed (s : GLA.t) : Prop :=
  (0 <= GLA.grid_size s)%Z
  /\ shape (GLA.X s) (Z.to_nat (GLA.grid_size s)) (Z.to_nat (GLA.grid_size s))
  /\ shape (GLA.Y s) (Z.to_nat (GLA.grid_size s)) (Z.to_nat (GLA.grid_size s))
  /\ shape (GLA.R s) (Z.to_nat (GLA.grid_size s)) (Z.to_nat (GLA.grid_size s))
  /\ shape (GLA.background s)
       (Z.to_nat (GLA.grid_size s)) (Z.to_nat (GLA.grid_size s)).

(** Where the light of the pixel at [(x, y)] comes from: the deflection,
    rotated by the phase, added to the position. *)
Definition source_position (bh : BlackHolePhysics.t) (x y rotation_angle : fval)
  : fval * fval :=
  let d := BlackHolePhysics.gravitational_lensing bh x y in
  ((x + (fst d * F.cos rotation_angle - snd d * F.sin rotation_angle))%fv,
   (y + (fst d * F.sin rotation_angle + snd d * F.cos rotation_angle))%fv).

(** [abs(sx) < 8 and abs(sy) < 8] *)
Definition in_domain (sx sy : fval) : bool :=
  F.ltb (F.abs sx) (Fin 8) && F.ltb (F.abs sy) (Fin 8).

(** [int((coord + 8) * grid_size / 16)] *)
Definition grid_index (n : Z) (coord : R) : Z :=
  Np.trunc ((coord + 8) * IZR n / 16).

(** [0 <= grid_x < grid_size and 0 <= grid_y < grid_size] *)
Definition index_ok (n gx gy : Z) : bool :=
  ((0 <=? gx) && (gx <? n) && ((0 <=? gy) && (gy <? n)))%Z.

(** The value one pixel of the lensed image ends with, from its source
    position and its radius. *)
Definition lensed_value (s : GLA.t) (sx sy r : fval) : fval :=
  if F.ltb r (BlackHolePhysics.rs (GLA.black_hole s) * Fin 1.1)%fv then Fin 0
  else if in_domain sx sy then
    match sx, sy with
    | Fin a, Fin b =>
        let gx := grid_index (GLA.grid_size s) a in
        let gy := grid_index (GLA.grid_size s) b in
        if index_ok (GLA.grid_size s) gx gy then
          match cell (GLA.background s) (Z.to_nat gy) (Z.to_nat gx) with
          | Some v => v
          | None => Fin 0
          end
        else Fin 0
    | _, _ => Fin 0
    end
  else Fin 0.

(** The radius after the floor of [gravitational_lensing]. *)
Definition floored (x y : R) : R := Rmax (radius x y) 0.1.

(** The two source arrays built before the loops of
    [calculate_lensed_image]. *)
Definition source_arrays (s : GLA.t) (rotation_angle : fval) : ndarray * ndarray :=
  let bh := GLA.black_hole s in
  let d := BlackHolePhysics.gravitational_lensing_nd bh (GLA.X s) (GLA.Y s) in
  let cos_rot := F.cos rotation_angle in
  let sin_rot := F.sin rotation_angle in
  (Np.add (GLA.X s) (Np.sub (Np.muls (fst d) cos_rot) (Np.muls (snd d) sin_rot)),
   Np.add (GLA.Y s) (Np.add (Np.muls (fst d) sin_rot) (Np.muls (snd d) cos_rot))).

(** Value of the pixel [(i, j)] once the loops have passed it. *)
Definition pixel_after (s : GLA.t) (source_x source_y : ndarray) (i j : nat)
  : fval :=
  match cell source_x i j, cell source_y i j, cell (GLA.R s) i j with
  | Some sx, Some sy, Some r => lensed_value s sx sy r
  | _, _, _ => Fin 0
  end.

(** The loops have passed [(i', j')] when they stand at [(i, k)]. *)
Definition passed (i k i' j' : nat) : bool :=
  (i' <? i)%nat || ((i' =? i)%nat && (j' <? k)%nat).

Definition loop_invariant (s : GLA.t) (source_x source_y : ndarray)
    (i k : nat) (img : ndarray) : Prop :=
  shape img (Z.to_nat (GLA.grid_size s)) (Z.to_nat (GLA.grid_size s))
  /\ forall i' j' : nat,
       (i' < Z.to_nat (GLA.grid_size s))%nat ->
       (j' < Z.to_nat (GLA.grid_size s))%nat ->
       cell img i' j'
       = Some (if passed i k i' j' then pixel_after s source_x source_y i' j'
               else Fin 0).

(** A method that never assigns an attribute of the object. *)
Definition read_only {S A} (m : Method S A) : Prop :=
  forall s v s', m s = Ok (v, s') -> s' = s.

(** One cell of [apply_relativistic_effects], from the position [(x, y)],
    the radius [r] and the cell [v] of the image. *)
Definition relativistic_value (bh : BlackHolePhysics.t)
    (x y r v rotation_angle : fval) : fval :=
  F.clip
    (v * fst (BlackHolePhysics.schwarzschild_metric_effects bh r)
       * BlackHolePhysics.doppler_shift bh x y rotation_angle
       * (if F.gtb r (BlackHolePhysics.rs bh)
          then Fin 1 + Fin 2 * BlackHolePhysics.M bh / r ** 2
          else Fin 1))%fv
    (Fin 0) (Fin 2).

(** One cell of [create_photon_sphere_glow]: ring intensity and azimuthal
    pattern. *)
Definition ring_value (bh : BlackHolePhysics.t) (r : fval) : fval :=
  (F.exp (- (F.abs (r - Fin 1.5 * BlackHolePhysics.rs bh) ** 2) / Fin 0.5)
   * Fin 2)%fv.

Definition pattern_value (x y rotation_angle : fval) : fval :=
  (Fin 1 + Fin 0.5 * F.sin (Fin 3 * F.arctan2 y x + rotation_angle * Fin 4))%fv.

Definition glow_value (bh : BlackHolePhysics.t) (x y r rotation_angle : fval)
  : fval :=
  (ring_value bh r * pattern_value x y rotation_angle)%fv.

(** One cell of the frame of [animate]. *)
Definition final_value (bh : BlackHolePhysics.t)
    (x y r v rotation_angle : fval) : fval :=
  if F.leb r (BlackHolePhysics.rs bh) then Fin 0
  else (relativistic_value bh x y r v rotation_angle
        + glow_value bh x y r rotation_angle)%fv.

(** The [k]-th of [n] samples spread evenly over [-8, 8]. *)
Definition grid_coord (n : Z) (k : nat) : R :=
  if (1 <? n)%Z then -8 + INR k * (16 / IZR (n - 1)) else -8.

(** The background field as the specification writes it. *)
Definition background_formula (x y : R) : R :=
  0.5 + 0.3 * (sin (8 * x) * sin (8 * y))
  + 0.2 * (sin (5.6 * x) * cos (10.4 * y))
  + 0.2 * (sin (2 * radius x y) * exp (- radius x y / 10)).

(** The physics model every renderer is built with. *)
Definition renderer_black_hole : BlackHolePhysics.t :=
  BlackHolePhysics.init (Fin 2) (Fin 0.8).


(** [int((coord + 8) * grid_size / 16)] as [lensed_pixel] computes it,
    the exceptions of [int] included. *)
Definition exact_index (n : Z) (coord : fval) : result Z :=
  Np.int ((coord + Fin 8) * Fin (IZR n) / Fin 16)%fv.

(** The body of the two loops of [calculate_lensed_image] with the index
    computation left open: [to_index n sx] stands for
    [int((sx + 8) * n / 16)], whatever the arithmetic of doubles makes of
    it.  With [exact_index] this is [lensed_pixel]. *)
Definition lensed_pixel_with (to_index : Z -> fval -> result Z)
    (source_x source_y : ndarray) (i j : nat) (lensed_image : ndarray)
  : Method GLA.t ndarray :=
  self <~ Method.get ;
  sx <~ Method.lift (Np.getitem2 source_x (Z.of_nat i) (Z.of_nat j)) ;
  sy <~ Method.lift (Np.getitem2 source_y (Z.of_nat i) (Z.of_nat j)) ;
  r <~ Method.lift (Np.getitem2 (GLA.R self) (Z.of_nat i) (Z.of_nat j)) ;
  if F.ltb r (BlackHolePhysics.rs (GLA.black_hole self) * Fin 1.1)%fv then
    Method.lift (Np.setitem2 lensed_image (Z.of_nat i) (Z.of_nat j) (Fin 0))
  else if F.ltb (F.abs sx) (Fin 8) && F.ltb (F.abs sy) (Fin 8) then
    grid_x <~ Method.lift (to_index (GLA.grid_size self) sx) ;
    grid_y <~ Method.lift (to_index (GLA.grid_size self) sy) ;
    if ((0 <=? grid_x) && (grid_x <? GLA.grid_size self)
        && ((0 <=? grid_y) && (grid_y <? GLA.grid_size self)))%Z then
      v <~ Method.lift (Np.getitem2 (GLA.background self) grid_y grid_x) ;
      Method.lift (Np.setitem2 lensed_image (Z.of_nat i) (Z.of_nat j) v)
    else Method.ret lensed_image
  else Method.ret lensed_image.

(** The two loops over the image of zeros, for given source arrays. *)
Definition lensed_loops_with (to_index : Z -> fval -> result Z)
    (source_x source_y : ndarray) : Method GLA.t ndarray :=
  self <~ Method.get ;
  Method.for_range (GLA.grid_size self) (fun i =>
    Method.for_range (GLA.grid_size self) (fun j =>
      lensed_pixel_with to_index source_x source_y i j))
    (Np.zeros_like (GLA.X self)).

(** The value one pixel ends with, for given indices. *)
Definition lensed_value_with (to_index : Z -> fval -> result Z)
    (s : GLA.t) (sx sy r : fval) : fval :=
  if F.ltb r (BlackHolePhysics.rs (GLA.black_hole s) * Fin 1.1)%fv then Fin 0
  else if in_domain sx sy then
    match to_index (GLA.grid_size s) sx, to_index (GLA.grid_size s) sy with
    | Ok gx, Ok gy =>
        if index_ok (GLA.grid_size s) gx gy then
          match cell (GLA.background s) (Z.to_nat gy) (Z.to_nat gx) with
          | Some v => v
          | None => Fin 0
          end
        else Fin 0
    | _, _ => Fin 0
    end
  else Fin 0.

Definition pixel_after_with (to_index : Z -> fval -> result Z)
    (s : GLA.t) (source_x source_y : ndarray) (i j : nat) : fval :=
  match cell source_x i j, cell source_y i j, cell (GLA.R s) i j with
  | Some sx, Some sy, Some r => lensed_value_with to_index s sx sy r
  | _, _, _ => Fin 0
  end.

Definition loop_invariant_with (to_index : Z -> fval -> result Z)
    (s : GLA.t) (source_x source_y : ndarray)
    (i k : nat) (img : ndarray) : Prop :=
  shape img (Z.to_nat (GLA.grid_size s)) (Z.to_nat (GLA.grid_size s))
  /\ forall i' j' : nat,
       (i' < Z.to_nat (GLA.grid_size s))%nat ->
       (j' < Z.to_nat (GLA.grid_size s))%nat ->
       cell img i' j'
       = Some (if passed i k i' j'
               then pixel_after_with to_index s source_x source_y i' j'
               else Fin 0).

(** An index computation that returns an integer on every coordinate that
    passed the test [abs(coord) < 8]: [int] of a finite double does not
    raise. *)
Definition index_total (to_index : Z -> fval -> result Z) (n : Z) : Prop :=
  forall v, F.ltb (F.abs v) (Fin 8) = true -> exists g, to_index n v = Ok g.

(** The magnitudes on which the statements about a single point are made,
    from 10^-50 to 10^50: on these no intermediate result of
    [gravitational_lensing] or [doppler_shift] overflows or underflows in
    doubles, so that the code differs from its value on the reals by
    rounding alone. *)
Definition magnitude_limit : R := 10 ^ 50.

Create Rewrite HintDb fv.

(* ===================================================================== *)
(** ** Arithmetic on finite values *)
(* ===================================================================== *)

Section FiniteArithmetic.

Implicit Types a b lo hi : R.

Lemma add_fin a b : (Fin a + Fin b)%fv = Fin (a + b).
Proof. reflexivity. Qed.

Lemma sub_fin a b : (Fin a - Fin b)%fv = Fin (a - b).
Proof. reflexivity. Qed.

Lemma neg_fin a : (- Fin a)%fv = Fin (- a).
Proof. reflexivity. Qed.

Lemma mul_fin a b : (Fin a * Fin b)%fv = Fin (a * b).
Proof. reflexivity. Qed.

Lemma pow_fin a n : (Fin a ** n)%fv = Fin (a ^ n).
Proof. reflexivity. Qed.

Lemma sin_fin a : F.sin (Fin a) = Fin (sin a).
Proof. reflexivity. Qed.

Lemma cos_fin a : F.cos (Fin a) = Fin (cos a).
Proof. reflexivity. Qed.

Lemma exp_fin a : F.exp (Fin a) = Fin (exp a).
Proof. reflexivity. Qed.

Lemma abs_fin a : F.abs (Fin a) = Fin (Rabs a).
Proof. reflexivity. Qed.

Lemma div_fin a b : b <> 0 -> (Fin a / Fin b)%fv = Fin (a / b).
Proof. intros Hb. unfold F.div. destruct (Req_dec_T b 0); [contradiction | reflexivity]. Qed.

Lemma div_zero_pos a b : b = 0 -> 0 < a -> (Fin a / Fin b)%fv = PInf.
Proof.
  intros Hb Ha. unfold F.div, F.sign_pos.
  destruct (Req_dec_T b 0); [ | contradiction].
  destruct (Rlt_dec 0 a); [reflexivity | contradiction].
Qed.

Lemma sqrt_fin a : 0 <= a -> F.sqrt (Fin a) = Fin (sqrt a).
Proof. intros Ha. unfold F.sqrt. destruct (Rlt_dec a 0); [lra | reflexivity]. Qed.

Lemma ltb_fin a b : F.ltb (Fin a) (Fin b) = if Rlt_dec a b then true else false.
Proof. reflexivity. Qed.

Lemma ltb_fin_true a b : F.ltb (Fin a) (Fin b) = true <-> a < b.
Proof. rewrite ltb_fin. destruct (Rlt_dec a b); split; intros; (done || lra). Qed.

Lemma ltb_fin_false a b : F.ltb (Fin a) (Fin b) = false <-> b <= a.
Proof. rewrite ltb_fin. destruct (Rlt_dec a b); split; intros; (done || lra). Qed.

Lemma leb_fin_true a b : F.leb (Fin a) (Fin b) = true <-> a <= b.
Proof. unfold F.leb. destruct (Rle_dec a b); split; intros; (done || lra). Qed.

Lemma leb_fin_false a b : F.leb (Fin a) (Fin b) = false <-> b < a.
Proof. unfold F.leb. destruct (Rle_dec a b); split; intros; (done || lra). Qed.

Lemma maximum_fin a b : F.maximum (Fin a) (Fin b) = Fin (Rmax a b).
Proof.
  unfold F.maximum. rewrite ltb_fin. unfold Rmax.
  destruct (Rlt_dec a b), (Rle_dec a b);
    first [reflexivity | lra | f_equal; lra].
Qed.

Lemma minimum_fin a b : F.minimum (Fin a) (Fin b) = Fin (Rmin a b).
Proof.
  unfold F.minimum. rewrite ltb_fin. unfold Rmin.
  destruct (Rlt_dec b a), (Rle_dec a b);
    first [reflexivity | lra | f_equal; lra].
Qed.

Lemma clip_fin a lo hi :
  F.clip (Fin a) (Fin lo) (Fin hi) = Fin (Rmin (Rmax a lo) hi).
Proof. unfold F.clip. now rewrite maximum_fin, minimum_fin. Qed.

(** A clipped value that is a number lies between the two limits. *)
Lemma clip_bounds (x : fval) lo hi :
  lo <= hi -> x <> NaN ->
  exists v, F.clip x (Fin lo) (Fin hi) = Fin v /\ lo <= v <= hi.
Proof.
  intros Hlh Hx. destruct x as [a | | | ].
  - rewrite clip_fin. eexists; split; [reflexivity | ].
    unfold Rmin, Rmax. destruct (Rle_dec a lo), (Rle_dec _ hi); lra.
  - exists hi. split; [reflexivity | lra].
  - exists lo. split; [ | lra].
    unfold F.clip. cbn [F.maximum F.ltb]. rewrite minimum_fin.
    f_equal. unfold Rmin. destruct (Rle_dec lo hi); lra.
  - contradiction.
Qed.

(** The reciprocal of a finite value, clipped: always between the limits. *)
Lemma clip_recip_bounds a lo hi :
  0 < lo <= hi ->
  exists v, F.clip (Fin 1 / Fin a)%fv (Fin lo) (Fin hi) = Fin v /\ lo <= v <= hi.
Proof.
  intros Hlh. apply clip_bounds; [lra | ].
  destruct (Req_dec_T a 0) as [-> | Ha].
  - rewrite div_zero_pos by lra. discriminate.
  - rewrite div_fin by assumption. discriminate.
Qed.

End FiniteArithmetic.

#[global] Hint Rewrite add_fin sub_fin neg_fin mul_fin pow_fin sin_fin cos_fin
  exp_fin abs_fin maximum_fin minimum_fin clip_fin : fv.

(** Real-number facts used below. *)
Lemma sum_squares_nonneg (x y : R) : 0 <= x ^ 2 + y ^ 2.
Proof. nra. Qed.

Lemma radius_pos (x y : R) : x <> 0 \/ y <> 0 -> 0 < sqrt (x ^ 2 + y ^ 2).
Proof. intros H. apply sqrt_lt_R0. destruct H; nra. Qed.

Lemma sqrt_sq_nonneg (r : R) : 0 <= r -> sqrt (r ^ 2) = r.
Proof. intros Hr. replace (r ^ 2) with (r * r) by ring. now apply sqrt_square. Qed.

Lemma sqrt_le_self (u : R) : 0 <= u <= 1 -> u <= sqrt u.
Proof.
  intros [H0 H1].
  rewrite <- (sqrt_sq_nonneg u) at 1 by assumption.
  apply sqrt_le_1_alt. nra.
Qed.

(* ===================================================================== *)
(** ** BlackHolePhysics: time dilation *)
(* ===================================================================== *)

Section TimeDilation.

Variable bh : BlackHolePhysics.t.
Variable s : R.
Hypothesis rs_finite : BlackHolePhysics.rs bh = Fin s.

Lemma time_dilation_eval (r : R) :
  0 < r ->
  fst (BlackHolePhysics.schwarzschild_metric_effects bh (Fin r))
  = Fin (time_dilation_formula s r).
Proof.
  intros Hr. unfold BlackHolePhysics.schwarzschild_metric_effects.
  cbn [fst]. rewrite rs_finite, div_fin by lra.
  autorewrite with fv. rewrite sqrt_fin; [reflexivity | ].
  pose proof (Rmax_r (1 - s / r) 0.01). lra.
Qed.

Lemma time_dilation_lower (r : R) : sqrt 0.01 <= time_dilation_formula s r.
Proof.
  unfold time_dilation_formula. apply sqrt_le_1_alt, Rmax_r.
Qed.

Hypothesis rs_nonneg : 0 <= s.

Lemma ratio_nonneg (r : R) : 0 < r -> 0 <= s / r.
Proof. intros Hr. apply Rle_mult_inv_pos; assumption. Qed.

Lemma time_dilation_upper (r : R) : 0 < r -> time_dilation_formula s r <= 1.
Proof.
  intros Hr. unfold time_dilation_formula.
  rewrite <- sqrt_1 at 2. apply sqrt_le_1_alt.
  pose proof (ratio_nonneg r Hr). apply Rmax_lub; lra.
Qed.

Lemma ratio_antitone (r1 r2 : R) : 0 < r1 -> r1 <= r2 -> s / r2 <= s / r1.
Proof.
  intros H1 H12. unfold Rdiv. apply Rmult_le_compat_l; [assumption | ].
  apply Rinv_le_contravar; assumption.
Qed.

Lemma time_dilation_monotone (r1 r2 : R) :
  0 < r1 -> r1 <= r2 ->
  time_dilation_formula s r1 <= time_dilation_formula s r2.
Proof.
  intros H1 H12. unfold time_dilation_formula. apply sqrt_le_1_alt.
  pose proof (ratio_antitone r1 r2 H1 H12).
  apply Rle_max_compat_r. lra.
Qed.

Lemma time_dilation_tends_to_one (eps : R) :
  0 < eps ->
  exists r0, 0 < r0 /\
    forall r, r0 <= r -> 1 - eps < time_dilation_formula s r <= 1.
Proof.
  intros Heps. exists (s / eps + 1).
  assert (H0 : 0 < s / eps + 1).
  { pose proof (Rle_mult_inv_pos s eps rs_nonneg Heps). unfold Rdiv. lra. }
  split; [assumption | ]. intros r Hr.
  assert (Hrpos : 0 < r) by lra.
  split; [ | now apply time_dilation_upper].
  assert (Hsmall : s / r < eps).
  { apply (Rmult_lt_reg_r r); [assumption | ].
    unfold Rdiv. rewrite Rmult_assoc, Rinv_l, Rmult_1_r by lra.
    assert (s / eps * eps = s) by (field; lra).
    nra. }
  pose proof (ratio_nonneg r Hrpos) as Hq.
  set (u := Rmax (1 - s / r) 0.01).
  assert (Hu : 1 - s / r <= u) by apply Rmax_l.
  assert (Hu0 : 0.01 <= u) by apply Rmax_r.
  assert (Hu1 : u <= 1) by (apply Rmax_lub; lra).
  assert (u <= sqrt u) by (apply sqrt_le_self; lra).
  unfold time_dilation_formula. fold u. lra.
Qed.

End TimeDilation.

(** C6.  For every r > 0 (and a horizon radius rs >= 0, as every physics
    model of positive mass has), [schwarzschild_metric_effects] returns
    timeDilation = sqrt(max(1 - rs/r, 0.01)); the value lies in
    [sqrt 0.01, 1], does not decrease when r grows, and comes as close to 1
    as wanted for r large enough. *)
Theorem schwarzschild_time_dilation
    (bh : BlackHolePhysics.t) (s r1 r2 : R) :
  BlackHolePhysics.rs bh = Fin s -> 0 <= s ->
  0 < r1 -> r1 <= r2 ->
  fst (BlackHolePhysics.schwarzschild_metric_effects bh (Fin r1))
    = Fin (time_dilation_formula s r1)
  /\ fst (BlackHolePhysics.schwarzschild_metric_effects bh (Fin r2))
    = Fin (time_dilation_formula s r2)
  /\ sqrt 0.01 <= time_dilation_formula s r1 <= 1
  /\ time_dilation_formula s r1 <= time_dilation_formula s r2
  /\ forall eps, 0 < eps ->
       exists r0, 0 < r0 /\ forall r, r0 <= r ->
         fst (BlackHolePhysics.schwarzschild_metric_effects bh (Fin r))
           = Fin (time_dilation_formula s r)
         /\ 1 - eps < time_dilation_formula s r <= 1.
Proof.
  intros Hrs Hs H1 H12.
  split; [now apply time_dilation_eval | ].
  split; [apply time_dilation_eval; [assumption | lra] | ].
  split; [split; [apply time_dilation_lower | now apply time_dilation_upper] | ].
  split; [now apply time_dilation_monotone | ].
  intros eps Heps.
  destruct (time_dilation_tends_to_one s Hs eps Heps) as (r0 & Hr0 & Hlim).
  exists r0. split; [assumption | ]. intros r Hr.
  split; [apply time_dilation_eval; [assumption | lra] | now apply Hlim].
Qed.

Lemma schwarzschild_time_dilation_witness :
  let bh := BlackHolePhysics.init (Fin 1) (Fin 0.7) in
  fst (BlackHolePhysics.schwarzschild_metric_effects bh (Fin 3))
    = Fin (time_dilation_formula (2 * 1) 3)
  /\ time_dilation_formula (2 * 1) 3 <= time_dilation_formula (2 * 1) 5.
Proof.
  intros bh.
  destruct (schwarzschild_time_dilation bh (2 * 1) 3 5) as (H1 & _ & _ & H4 & _);
    [reflexivity | lra | lra | lra | ].
  split; assumption.
Defined.

(* ===================================================================== *)
(** ** BlackHolePhysics: deflection *)
(* ===================================================================== *)

Section Deflection.

Variable bh : BlackHolePhysics.t.
Variable m : R.
Hypothesis M_finite : BlackHolePhysics.M bh = Fin m.

Lemma floored_pos (x y : R) : 0 < floored x y.
Proof. unfold floored. pose proof (Rmax_r (radius x y) 0.1). lra. Qed.

Lemma gravitational_lensing_eval (x y : R) :
  BlackHolePhysics.gravitational_lensing bh (Fin x) (Fin y)
  = (Fin (- (4 * m / floored x y) * (y / floored x y)),
     Fin (4 * m / floored x y * (x / floored x y))).
Proof.
  pose proof (floored_pos x y) as Hf.
  unfold BlackHolePhysics.gravitational_lensing.
  rewrite M_finite. autorewrite with fv.
  rewrite sqrt_fin by apply sum_squares_nonneg.
  autorewrite with fv. fold (radius x y). fold (floored x y).
  rewrite !div_fin by lra. autorewrite with fv. reflexivity.
Qed.

(** Well defined everywhere, the origin included. *)
Lemma gravitational_lensing_finite (x y : R) :
  exists dx dy,
    BlackHolePhysics.gravitational_lensing bh (Fin x) (Fin y) = (Fin dx, Fin dy).
Proof. rewrite gravitational_lensing_eval. eauto. Qed.

Lemma gravitational_lensing_origin :
  BlackHolePhysics.gravitational_lensing bh (Fin 0) (Fin 0) = (Fin 0, Fin 0).
Proof.
  rewrite gravitational_lensing_eval.
  f_equal; apply f_equal; unfold Rdiv; ring.
Qed.

Lemma magnitude_eval (x y : R) :
  magnitude (BlackHolePhysics.gravitational_lensing bh (Fin x) (Fin y))
  = Fin (Rabs (4 * m) * radius x y / (floored x y) ^ 2).
Proof.
  pose proof (floored_pos x y) as Hf.
  rewrite gravitational_lensing_eval. unfold magnitude. cbn [fst snd].
  autorewrite with fv. rewrite sqrt_fin by apply sum_squares_nonneg.
  f_equal.
  replace ((- (4 * m / floored x y) * (y / floored x y)) ^ 2
           + (4 * m / floored x y * (x / floored x y)) ^ 2)
    with ((4 * m / (floored x y) ^ 2) ^ 2 * (x ^ 2 + y ^ 2)) by (field; lra).
  rewrite sqrt_mult_alt by apply pow2_ge_0.
  rewrite <- Rsqr_pow2, sqrt_Rsqr_abs. fold (radius x y).
  unfold Rdiv at 1. rewrite Rabs_mult.
  rewrite (Rabs_pos_eq (/ _)).
  - unfold Rdiv. ring.
  - left. apply Rinv_0_lt_compat. nra.
Qed.

(** From the floor outwards the magnitude is 4M/r. *)
Lemma magnitude_outside_floor (x y : R) :
  0 < m -> 0.1 <= radius x y ->
  magnitude (BlackHolePhysics.gravitational_lensing bh (Fin x) (Fin y))
  = Fin (4 * m / radius x y).
Proof.
  intros Hm Hr. rewrite magnitude_eval. f_equal.
  unfold floored. rewrite Rmax_left by assumption.
  rewrite Rabs_pos_eq by lra. field. lra.
Qed.

(** Below the floor the magnitude grows with the radius. *)
Lemma magnitude_inside_floor (x y : R) :
  0 < m -> radius x y <= 0.1 ->
  magnitude (BlackHolePhysics.gravitational_lensing bh (Fin x) (Fin y))
  = Fin (400 * m * radius x y).
Proof.
  intros Hm Hr. rewrite magnitude_eval. f_equal.
  unfold floored. rewrite Rmax_right by assumption.
  rewrite Rabs_pos_eq by lra.
  replace (0.1 ^ 2) with (/ 100) by lra.
  unfold Rdiv. rewrite Rinv_inv. ring.
Qed.

End Deflection.

Lemma radius_on_axis (x : R) : 0 <= x -> radius x 0 = x.
Proof.
  intros Hx. unfold radius. replace (x ^ 2 + 0 ^ 2) with (x ^ 2) by ring.
  now apply sqrt_sq_nonneg.
Qed.

(** C5 as the specification states it fails below the floor: with the
    default mass 1 the deflection at the origin has magnitude 0 and the one
    at (0.05, 0), farther out, has magnitude 20. *)
Lemma deflection_magnitude_grows_below_floor :
  ~ (forall x1 y1 x2 y2 m1 m2 : R,
       radius x1 y1 < radius x2 y2 ->
       magnitude (BlackHolePhysics.gravitational_lensing
                    (BlackHolePhysics.init (Fin 1) (Fin 0.7)) (Fin x1) (Fin y1))
         = Fin m1 ->
       magnitude (BlackHolePhysics.gravitational_lensing
                    (BlackHolePhysics.init (Fin 1) (Fin 0.7)) (Fin x2) (Fin y2))
         = Fin m2 ->
       m2 < m1).
Proof.
  intros H.
  assert (R0 : radius 0 0 = 0) by (apply radius_on_axis; lra).
  assert (R1 : radius 0.05 0 = 0.05) by (apply radius_on_axis; lra).
  assert (Hlt : radius 0 0 < radius 0.05 0) by (rewrite R0, R1; lra).
  pose proof (H 0 0 0.05 0 _ _ Hlt
    (magnitude_inside_floor (BlackHolePhysics.init (Fin 1) (Fin 0.7)) 1
       eq_refl 0 0 ltac:(lra) ltac:(lra))
    (magnitude_inside_floor (BlackHolePhysics.init (Fin 1) (Fin 0.7)) 1
       eq_refl 0.05 0 ltac:(lra) ltac:(lra))) as Hc.
  rewrite R0, R1 in Hc. lra.
Qed.

Lemma magnitude_limit_bounds :
  10 <= magnitude_limit /\ 0 < / magnitude_limit <= 0.1.
Proof. unfold magnitude_limit. lra. Qed.

Lemma within_magnitude_limit (v : R) :
  -10 <= v <= 10 -> Rabs v <= magnitude_limit.
Proof.
  intros Hv. destruct magnitude_limit_bounds as [Hl _].
  unfold Rabs. destruct (Rcase_abs v); lra.
Qed.

Lemma abs_le_radius (x y : R) : Rabs x <= radius x y /\ Rabs y <= radius x y.
Proof.
  unfold radius.
  split; rewrite <- sqrt_Rsqr_abs; apply sqrt_le_1_alt; unfold Rsqr; nra.
Qed.

Lemma off_origin (x y : R) : 0 < radius x y -> x <> 0 \/ y <> 0.
Proof.
  intros Hr.
  destruct (Req_dec_T x 0) as [Hx | ]; [ | now left].
  destruct (Req_dec_T y 0) as [Hy | ]; [ | now right].
  rewrite Hx, Hy, radius_on_axis in Hr by lra. lra.
Qed.

(** Each component of the deflection is at most 40 |M|: the strength is
    at most 4 |M| / 0.1, and x/r and y/r are at most 1. *)
Lemma gravitational_lensing_bounded (bh : BlackHolePhysics.t) (m x y : R) :
  BlackHolePhysics.M bh = Fin m ->
  exists dx dy : R,
    BlackHolePhysics.gravitational_lensing bh (Fin x) (Fin y) = (Fin dx, Fin dy)
    /\ Rabs dx <= 40 * Rabs m /\ Rabs dy <= 40 * Rabs m.
Proof.
  intros HM. rewrite (gravitational_lensing_eval bh m HM).
  eexists; eexists. split; [reflexivity | ].
  destruct (abs_le_radius x y) as [Hx Hy].
  pose proof (Rmax_l (radius x y) 0.1) as Hl.
  pose proof (Rmax_r (radius x y) 0.1) as Hr.
  fold (floored x y) in Hl, Hr. set (f := floored x y) in *.
  assert (Hu : 0 < / f <= 10).
  { split; [apply Rinv_0_lt_compat; lra | ].
    replace 10 with (/ 0.1) by lra. apply Rinv_le_contravar; lra. }
  assert (Hone : f * / f = 1) by (apply Rinv_r; lra).
  pose proof (Rabs_pos m) as Hm. pose proof (Rabs_pos x) as Hx0.
  pose proof (Rabs_pos y) as Hy0.
  assert (Hbound : forall c, 0 <= c <= f ->
            4 * Rabs m * / f * (c * / f) <= 40 * Rabs m).
  { intros c Hc.
    assert (H1 : 0 <= c * / f <= 1) by (split; nra).
    assert (H2 : 0 <= 4 * Rabs m * / f <= 40 * Rabs m) by (split; nra).
    nra. }
  unfold Rdiv.
  rewrite !Rabs_mult, Rabs_Ropp, !Rabs_mult, !Rabs_inv.
  rewrite (Rabs_pos_eq f) by lra. rewrite (Rabs_pos_eq 4) by lra.
  split; apply Hbound; lra.
Qed.

(** C5, amended.  In exact arithmetic (the rounding of doubles aside), for
    a mass M and radii within [magnitude_limit], from the floor 0.1
    outwards, the deflection has magnitude 4M/r, which strictly decreases
    as the radius grows, and which doubling the radius at least halves;
    and [gravitational_lensing] is well defined at every position within
    the limit, the origin included: the result is a pair of numbers of
    absolute value at most 40 M, (0, 0) at the origin. *)
Theorem deflection_magnitude_decreasing
    (bh : BlackHolePhysics.t) (m x1 y1 x2 y2 : R) :
  BlackHolePhysics.M bh = Fin m ->
  / magnitude_limit <= m <= magnitude_limit ->
  0.1 <= radius x1 y1 -> radius x1 y1 < radius x2 y2 ->
  radius x2 y2 <= magnitude_limit ->
  magnitude (BlackHolePhysics.gravitational_lensing bh (Fin x1) (Fin y1))
    = Fin (4 * m / radius x1 y1)
  /\ magnitude (BlackHolePhysics.gravitational_lensing bh (Fin x2) (Fin y2))
    = Fin (4 * m / radius x2 y2)
  /\ 4 * m / radius x2 y2 < 4 * m / radius x1 y1
  /\ (2 * radius x1 y1 <= radius x2 y2 ->
      4 * m / radius x2 y2 <= 4 * m / radius x1 y1 / 2)
  /\ BlackHolePhysics.gravitational_lensing bh (Fin 0) (Fin 0) = (Fin 0, Fin 0)
  /\ forall x y : R,
       Rabs x <= magnitude_limit -> Rabs y <= magnitude_limit ->
       exists dx dy : R,
         BlackHolePhysics.gravitational_lensing bh (Fin x) (Fin y)
         = (Fin dx, Fin dy)
         /\ Rabs dx <= 40 * m /\ Rabs dy <= 40 * m.
Proof.
  intros HM [Hmlo Hmhi] H1 H12 H2.
  destruct magnitude_limit_bounds as (_ & Hinv & _).
  assert (Hm : 0 < m) by lra.
  split; [now apply magnitude_outside_floor | ].
  split; [apply magnitude_outside_floor; [assumption | assumption | lra] | ].
  split.
  { unfold Rdiv. apply Rmult_lt_compat_l; [lra | ].
    apply Rinv_lt_contravar; [ | assumption]. nra. }
  split.
  { intros Hdouble.
    replace (4 * m / radius x1 y1 / 2) with (4 * m * / (2 * radius x1 y1))
      by (field; lra).
    unfold Rdiv. apply Rmult_le_compat_l; [lra | ].
    apply Rinv_le_contravar; lra. }
  split; [now apply gravitational_lensing_origin with (m := m) | ].
  intros x y _ _.
  destruct (gravitational_lensing_bounded bh m x y HM) as (dx & dy & Hd & Hx & Hy).
  rewrite (Rabs_pos_eq m) in Hx, Hy by lra. eauto.
Qed.

Lemma deflection_magnitude_decreasing_witness :
  magnitude (BlackHolePhysics.gravitational_lensing
               (BlackHolePhysics.init (Fin 1) (Fin 0.7)) (Fin 1) (Fin 0))
    = Fin (4 * 1 / radius 1 0)
  /\ magnitude (BlackHolePhysics.gravitational_lensing
                  (BlackHolePhysics.init (Fin 1) (Fin 0.7)) (Fin 2) (Fin 0))
    = Fin (4 * 1 / radius 2 0)
  /\ 4 * 1 / radius 2 0 < 4 * 1 / radius 1 0.
Proof.
  assert (R1 : radius 1 0 = 1) by (apply radius_on_axis; lra).
  assert (R2 : radius 2 0 = 2) by (apply radius_on_axis; lra).
  destruct magnitude_limit_bounds as (Hl & Hinv & Hinv').
  destruct (deflection_magnitude_decreasing
              (BlackHolePhysics.init (Fin 1) (Fin 0.7)) 1 1 0 2 0)
    as (Ha & Hb & Hc & _);
    [reflexivity | lra | lra | lra | lra | exact (conj Ha (conj Hb Hc))].
Defined.

(* ===================================================================== *)
(** ** BlackHolePhysics: Doppler factor *)
(* ===================================================================== *)

Lemma arctan2_finite (y x : R) : exists phi, F.arctan2 (Fin y) (Fin x) = Fin phi.
Proof.
  unfold F.arctan2.
  destruct (Rlt_dec 0 x), (Rlt_dec x 0), (Rlt_dec y 0), (Rlt_dec 0 y); eauto.
Qed.

Section Doppler.

Variable bh : BlackHolePhysics.t.
Variables m a0 : R.
Hypothesis M_finite : BlackHolePhysics.M bh = Fin m.
Hypothesis a_finite : BlackHolePhysics.a bh = Fin a0.

(** Away from the origin the factor is a number between the two limits. *)
Lemma doppler_shift_bounds (x y p : R) :
  x <> 0 \/ y <> 0 ->
  exists d, BlackHolePhysics.doppler_shift bh (Fin x) (Fin y) (Fin p) = Fin d
            /\ 0.3 <= d <= 2.
Proof.
  intros Hxy. pose proof (radius_pos x y Hxy) as Hr.
  unfold BlackHolePhysics.doppler_shift.
  rewrite M_finite, a_finite. autorewrite with fv.
  rewrite sqrt_fin by apply sum_squares_nonneg.
  destruct (arctan2_finite y x) as [phi ->].
  autorewrite with fv. rewrite div_fin.
  - autorewrite with fv. apply clip_recip_bounds. lra.
  - assert (0 < sqrt (x ^ 2 + y ^ 2) ^ 3) by (apply pow_lt; assumption).
    assert (0 <= a0 ^ 2 * sqrt (x ^ 2 + y ^ 2)) by nra.
    lra.
Qed.

(** At the origin nothing floors the radius: 2Ma is divided by 0 and the
    infinity (or NaN) is multiplied by r = 0. *)
Lemma doppler_shift_origin_nan (p : fval) :
  BlackHolePhysics.doppler_shift bh (Fin 0) (Fin 0) p = NaN.
Proof.
  unfold BlackHolePhysics.doppler_shift.
  rewrite M_finite, a_finite. autorewrite with fv.
  rewrite sqrt_fin by lra.
  replace (0 ^ 2 + 0 ^ 2) with 0 by ring. rewrite sqrt_0.
  autorewrite with fv.
  assert (Hv : (Fin (2 * m * a0) / Fin (0 ^ 3 + a0 ^ 2 * 0) * Fin 0)%fv = NaN).
  { unfold F.div. destruct (Req_dec_T (0 ^ 3 + a0 ^ 2 * 0) 0) as [_ | Hne].
    - assert (Hs : F.sign_pos 0 = None).
      { unfold F.sign_pos. destruct (Rlt_dec 0 0); [lra | reflexivity]. }
      destruct (F.sign_pos (2 * m * a0)) as [[|] | ]; cbn [F.inf_of F.mul];
        unfold F.mul_inf; rewrite ?Hs; reflexivity.
    - exfalso. apply Hne. ring. }
  rewrite Hv. destruct (F.sin _); reflexivity.
Qed.

End Doppler.

(** C3 at the origin.  Whatever the mass, the spin and the rotation phase,
    [doppler_shift(0, 0, phase)] is NaN: the radius is not floored in this
    method, 2Ma/0 is multiplied by 0, and [np.clip] lets NaN through. *)
Theorem doppler_shift_nan_at_origin (mass spin phase : R) :
  BlackHolePhysics.doppler_shift
    (BlackHolePhysics.init (Fin mass) (Fin spin)) (Fin 0) (Fin 0) (Fin phase)
  = NaN.
Proof.
  apply doppler_shift_origin_nan with (m := mass) (a0 := spin * mass);
    reflexivity.
Qed.

(* ===================================================================== *)
(** ** Arrays: cells and shapes *)
(* ===================================================================== *)

Section Arrays.

Local Open Scope nat_scope.
Context {A B C : Type}.

Lemma cell_map2d (f : A -> B) (a : list (list A)) i j :
  cell (Np.map2d f a) i j = f <$> cell a i j.
Proof.
  unfold cell, Np.map2d. rewrite list_lookup_fmap.
  destruct (a !! i) as [row | ]; cbn; [apply list_lookup_fmap | reflexivity].
Qed.

Lemma cell_zip2d (f : A -> B -> C) (a : list (list A)) (b : list (list B)) i j :
  cell (Np.zip2d f a b) i j
  = match cell a i j, cell b i j with
    | Some x, Some y => Some (f x y)
    | _, _ => None
    end.
Proof.
  unfold cell, Np.zip2d. rewrite lookup_zip_with.
  destruct (a !! i) as [ra | ]; cbn; [ | reflexivity].
  destruct (b !! i) as [rb | ]; cbn.
  - rewrite lookup_zip_with.
    destruct (ra !! j); cbn; [ | reflexivity]. destruct (rb !! j); reflexivity.
  - destruct (ra !! j); reflexivity.
Qed.

Lemma shape_cell (a : list (list A)) n m i j :
  shape a n m -> i < n -> j < m -> exists v, cell a i j = Some v.
Proof.
  intros [Hn Hm] Hi Hj. unfold cell.
  destruct (lookup_lt_is_Some_2 a i) as [row Hrow]; [lia | ].
  rewrite Hrow. apply lookup_lt_is_Some_2.
  rewrite Forall_lookup in Hm. rewrite (Hm i row Hrow). exact Hj.
Qed.

Lemma cell_in_shape (a : list (list A)) n m i j v :
  shape a n m -> cell a i j = Some v -> i < n /\ j < m.
Proof.
  intros [Hn Hm] Hc. unfold cell in Hc.
  destruct (a !! i) as [row | ] eqn:Hrow; [ | discriminate].
  rewrite Forall_lookup in Hm. rewrite <- (Hm i row Hrow).
  apply lookup_lt_Some in Hrow. apply lookup_lt_Some in Hc. lia.
Qed.

Lemma shape_map2d (f : A -> B) (a : list (list A)) n m :
  shape a n m -> shape (Np.map2d f a) n m.
Proof.
  intros [Hn Hm]. unfold Np.map2d. split.
  - now rewrite length_fmap.
  - rewrite Forall_fmap. eapply Forall_impl; [exact Hm | ].
    intros row Hrow. cbn. now rewrite length_fmap.
Qed.

Lemma shape_zip2d (f : A -> B -> C) (a : list (list A)) (b : list (list B)) n m :
  shape a n m -> shape b n m -> shape (Np.zip2d f a b) n m.
Proof.
  intros [Han Ham] [Hbn Hbm]. unfold Np.zip2d. split.
  - rewrite length_zip_with. lia.
  - rewrite Forall_lookup in Ham. rewrite Forall_lookup in Hbm.
    rewrite Forall_lookup. intros i row Hrow.
    rewrite lookup_zip_with in Hrow.
    destruct (a !! i) as [ra | ] eqn:Ha; [ | discriminate].
    destruct (b !! i) as [rb | ] eqn:Hb; [ | discriminate].
    cbn in Hrow. injection Hrow as <-.
    rewrite length_zip_with, (Ham i ra Ha), (Hbm i rb Hb). lia.
Qed.

End Arrays.

Section Indexing.

Local Open Scope nat_scope.
Context {A : Type}.

Lemma norm_index_inrange (len : nat) (z : Z) :
  (0 <= z < Z.of_nat len)%Z -> Np.norm_index len z = Some (Z.to_nat z).
Proof.
  intros [H0 H1]. unfold Np.norm_index.
  destruct (Z.leb_spec 0 z); [ | lia].
  destruct (Z.ltb_spec z (Z.of_nat len)); [reflexivity | lia].
Qed.

Lemma norm_index_nat (len i : nat) :
  i < len -> Np.norm_index len (Z.of_nat i) = Some i.
Proof.
  intros Hi. rewrite norm_index_inrange by lia. now rewrite Nat2Z.id.
Qed.

Lemma getitem_lookup (l : list A) (i : nat) (v : A) :
  l !! i = Some v -> Np.getitem l (Z.of_nat i) = Ok v.
Proof.
  intros Hl. unfold Np.getitem.
  rewrite norm_index_nat by (eapply lookup_lt_Some; eassumption).
  now rewrite Hl.
Qed.

Lemma setitem_lookup (l : list A) (i : nat) (x v : A) :
  l !! i = Some x -> Np.setitem l (Z.of_nat i) v = Ok (<[i := v]> l).
Proof.
  intros Hl. unfold Np.setitem.
  now rewrite norm_index_nat by (eapply lookup_lt_Some; eassumption).
Qed.

Lemma cell_update2_eq (a : list (list A)) i j x v :
  cell a i j = Some x -> cell (update2 a i j v) i j = Some v.
Proof.
  unfold cell, update2. intros Hc.
  destruct (a !! i) as [row | ] eqn:Hrow; [ | discriminate].
  rewrite list_lookup_insert_eq by (eapply lookup_lt_Some; eassumption).
  apply list_lookup_insert_eq. eapply lookup_lt_Some; eassumption.
Qed.

Lemma cell_update2_ne (a : list (list A)) i j v i' j' :
  i' <> i \/ j' <> j -> cell (update2 a i j v) i' j' = cell a i' j'.
Proof.
  unfold cell, update2. intros Hne.
  destruct (a !! i) as [row | ] eqn:Hrow; [ | reflexivity].
  destruct (decide (i' = i)) as [-> | Hi].
  - rewrite list_lookup_insert_eq by (eapply lookup_lt_Some; eassumption).
    rewrite Hrow. apply list_lookup_insert_ne. destruct Hne; congruence.
  - now rewrite list_lookup_insert_ne by congruence.
Qed.

Lemma shape_update2 (a : list (list A)) n m i j v :
  shape a n m -> shape (update2 a i j v) n m.
Proof.
  intros [Hn Hm]. unfold update2.
  destruct (a !! i) as [row | ] eqn:Hrow; [ | now split].
  split; [now rewrite length_insert | ].
  rewrite Forall_lookup in Hm. rewrite Forall_lookup. intros k r Hk.
  destruct (decide (k = i)) as [-> | Hki].
  - rewrite list_lookup_insert_eq in Hk by (eapply lookup_lt_Some; eassumption).
    injection Hk as <-. rewrite length_insert. eauto.
  - rewrite list_lookup_insert_ne in Hk by congruence. eauto.
Qed.

End Indexing.

Section Indexing2.

Local Open Scope nat_scope.

Lemma getitem2_cell (a : ndarray) i j v :
  cell a i j = Some v -> Np.getitem2 a (Z.of_nat i) (Z.of_nat j) = Ok v.
Proof.
  unfold cell, Np.getitem2. intros Hc.
  destruct (a !! i) as [row | ] eqn:Hrow; [ | discriminate].
  rewrite (getitem_lookup a i row Hrow). now apply getitem_lookup.
Qed.

(** A read at indices inside the array reads that very cell: nothing wraps. *)
Lemma getitem2_inrange (a : ndarray) n m (gy gx : Z) :
  shape a n m ->
  (0 <= gy < Z.of_nat n)%Z -> (0 <= gx < Z.of_nat m)%Z ->
  exists v, cell a (Z.to_nat gy) (Z.to_nat gx) = Some v
            /\ Np.getitem2 a gy gx = Ok v.
Proof.
  intros Hs Hy Hx.
  destruct (shape_cell a n m (Z.to_nat gy) (Z.to_nat gx) Hs) as [v Hv];
    [lia | lia | ].
  exists v. split; [assumption | ].
  rewrite <- (Z2Nat.id gy), <- (Z2Nat.id gx) by lia. now apply getitem2_cell.
Qed.

Lemma setitem2_cell (a : ndarray) i j x v :
  cell a i j = Some x ->
  Np.setitem2 a (Z.of_nat i) (Z.of_nat j) v = Ok (update2 a i j v).
Proof.
  unfold cell, Np.setitem2, update2. intros Hc.
  destruct (a !! i) as [row | ] eqn:Hrow; [ | discriminate].
  rewrite (getitem_lookup a i row Hrow).
  rewrite (setitem_lookup row j x v Hc).
  now rewrite (setitem_lookup a i row _ Hrow).
Qed.

End Indexing2.

(* ===================================================================== *)
(** ** Methods that only read the object; loops *)
(* ===================================================================== *)

Section Methods.

Context {S : Type}.

Lemma read_only_ret {A} (v : A) : read_only (S := S) (Method.ret v).
Proof. intros s v' s' H. injection H as _ <-. reflexivity. Qed.

Lemma read_only_get : read_only (@Method.get S).
Proof. intros s v' s' H. injection H as _ <-. reflexivity. Qed.

Lemma read_only_lift {A} (r : result A) : read_only (S := S) (Method.lift r).
Proof.
  intros s v s' H. unfold Method.lift in H.
  destruct r; [injection H as _ <-; reflexivity | discriminate].
Qed.

Lemma read_only_bind {A B} (m : Method S A) (k : A -> Method S B) :
  read_only m -> (forall v, read_only (k v)) -> read_only (Method.bind m k).
Proof.
  intros Hm Hk s v s' H. unfold Method.bind in H.
  destruct (m s) as [[u s1] | e] eqn:Hms; [ | discriminate].
  apply Hm in Hms. subst s1. eapply Hk. eassumption.
Qed.

Lemma read_only_for_each {A} (ks : list nat) (body : nat -> A -> Method S A) :
  (forall k acc, read_only (body k acc)) ->
  forall acc, read_only (Method.for_each ks body acc).
Proof.
  intros Hbody. induction ks as [ | k ks IH]; intros acc; cbn [Method.for_each].
  - apply read_only_ret.
  - apply read_only_bind; [apply Hbody | exact IH].
Qed.

Lemma read_only_if {A} (t : bool) (m1 m2 : Method S A) :
  read_only m1 -> read_only m2 -> read_only (if t then m1 else m2).
Proof. destruct t; auto. Qed.

(** A loop over [range(n)] whose body keeps the invariant [I] and the
    object ends, with the invariant at [n]. *)
Lemma for_each_invariant {A} (I : nat -> A -> Prop)
    (body : nat -> A -> Method S A) (s : S) (n : nat) :
  (forall k acc, (k < n)%nat -> I k acc ->
     exists acc', body k acc s = Ok (acc', s) /\ I (Datatypes.S k) acc') ->
  forall b acc, (b <= n)%nat -> I b acc ->
    exists acc', Method.for_each (seq b (n - b)) body acc s = Ok (acc', s)
                 /\ I n acc'.
Proof.
  intros Hbody b acc Hb. remember (n - b)%nat as d eqn:Hd.
  revert b acc Hb Hd. induction d as [ | d IH]; intros b acc Hb Hd HI.
  - cbn. exists acc. split; [reflexivity | ].
    replace n with b by lia. exact HI.
  - cbn [seq Method.for_each]. unfold Method.bind.
    destruct (Hbody b acc ltac:(lia) HI) as (acc1 & -> & HI1).
    apply IH; [lia | lia | exact HI1].
Qed.

Lemma for_range_invariant {A} (I : nat -> A -> Prop)
    (body : nat -> A -> Method S A) (s : S) (n : Z) (acc : A) :
  I 0%nat acc ->
  (forall k acc, (k < Z.to_nat n)%nat -> I k acc ->
     exists acc', body k acc s = Ok (acc', s) /\ I (Datatypes.S k) acc') ->
  exists acc', Method.for_range n body acc s = Ok (acc', s)
               /\ I (Z.to_nat n) acc'.
Proof.
  intros H0 Hbody. unfold Method.for_range.
  pose proof (for_each_invariant I body s (Z.to_nat n) Hbody 0%nat acc
                ltac:(lia) H0) as H.
  rewrite Nat.sub_0_r in H. exact H.
Qed.

End Methods.

(* ===================================================================== *)
(** ** calculate_lensed_image *)
(* ===================================================================== *)

Lemma in_domain_finite (sx sy : fval) :
  in_domain sx sy = true -> exists a b, sx = Fin a /\ sy = Fin b.
Proof.
  unfold in_domain. intros H. apply andb_prop in H as [Hx Hy].
  destruct sx as [a | | | ]; try discriminate.
  destruct sy as [b | | | ]; try discriminate. eauto.
Qed.

Lemma index_ok_spec (n gx gy : Z) :
  index_ok n gx gy = true <-> (0 <= gx < n /\ 0 <= gy < n)%Z.
Proof.
  unfold index_ok. rewrite !andb_true_iff, !Z.leb_le, !Z.ltb_lt. lia.
Qed.

Section LensedPixel.

Local Open Scope nat_scope.

Variable s : GLA.t.
Hypothesis Hwf : well_formed s.
Variables source_x source_y : ndarray.

Local Abbreviation dim := (Z.to_nat (GLA.grid_size s)).

Hypothesis Hsx : shape source_x dim dim.
Hypothesis Hsy : shape source_y dim dim.

Lemma lensed_pixel_step (i j : nat) (img : ndarray) :
  i < dim -> j < dim -> loop_invariant s source_x source_y i j img ->
  exists img',
    GLA.lensed_pixel source_x source_y i j img s = Ok (img', s)
    /\ loop_invariant s source_x source_y i (Datatypes.S j) img'.
Proof.
  intros Hi Hj [Hshape Hcells].
  destruct Hwf as (Hn & HX & HY & HR & Hbg).
  destruct (shape_cell source_x dim dim i j Hsx Hi Hj) as [sx Hcx].
  destruct (shape_cell source_y dim dim i j Hsy Hi Hj) as [sy Hcy].
  destruct (shape_cell (GLA.R s) dim dim i j HR Hi Hj) as [r Hcr].
  assert (Hzero : cell img i j = Some (Fin 0)).
  { rewrite (Hcells i j Hi Hj). unfold passed.
    rewrite Nat.ltb_irrefl, Nat.eqb_refl, Nat.ltb_irrefl. reflexivity. }
  (* what the body leaves depends only on the value it stores, if any *)
  assert (Hstore : forall v, v = pixel_after s source_x source_y i j ->
            loop_invariant s source_x source_y i (Datatypes.S j) (update2 img i j v)).
  { intros v ->. split; [now apply shape_update2 | ].
    intros i' j' Hi' Hj'.
    destruct (decide (i' = i /\ j' = j)) as [[-> ->] | Hne].
    - rewrite (cell_update2_eq img i j (Fin 0)) by assumption.
      unfold passed. rewrite Nat.ltb_irrefl, Nat.eqb_refl.
      destruct (Nat.ltb_spec j (Datatypes.S j)); [reflexivity | lia].
    - rewrite cell_update2_ne by lia. rewrite (Hcells i' j' Hi' Hj').
      f_equal. unfold passed.
      destruct (Nat.ltb_spec i' i); [reflexivity | ]. cbn [orb].
      destruct (Nat.eqb_spec i' i); [ | reflexivity]. cbn [andb].
      destruct (Nat.ltb_spec j' j), (Nat.ltb_spec j' (Datatypes.S j));
        (reflexivity || lia). }
  assert (Hkeep : Fin 0 = pixel_after s source_x source_y i j ->
            loop_invariant s source_x source_y i (Datatypes.S j) img).
  { intros Hv. split; [assumption | ].
    intros i' j' Hi' Hj'. rewrite (Hcells i' j' Hi' Hj').
    destruct (decide (i' = i /\ j' = j)) as [[-> ->] | Hne].
    - unfold passed. rewrite Nat.ltb_irrefl, Nat.eqb_refl, Nat.ltb_irrefl.
      destruct (Nat.ltb_spec j (Datatypes.S j)); [ | lia].
      cbn [orb andb]. now rewrite <- Hv.
    - f_equal. unfold passed.
      destruct (Nat.ltb_spec i' i); [reflexivity | ]. cbn [orb].
      destruct (Nat.eqb_spec i' i); [ | reflexivity]. cbn [andb].
      destruct (Nat.ltb_spec j' j), (Nat.ltb_spec j' (Datatypes.S j));
        (reflexivity || lia). }
  unfold GLA.lensed_pixel, Method.bind, Method.get, Method.lift, Method.ret.
  rewrite (getitem2_cell _ _ _ _ Hcx), (getitem2_cell _ _ _ _ Hcy),
          (getitem2_cell _ _ _ _ Hcr).
  unfold pixel_after in Hstore, Hkeep. rewrite Hcx, Hcy, Hcr in Hstore, Hkeep.
  unfold lensed_value in Hstore, Hkeep. fold (in_domain sx sy).
  destruct (F.ltb r _).
  { rewrite (setitem2_cell img i j (Fin 0)) by assumption. eauto. }
  destruct (in_domain sx sy) eqn:Hdom; [ | eauto].
  destruct (in_domain_finite sx sy Hdom) as (a & b & -> & ->).
  autorewrite with fv. rewrite !div_fin by lra. cbn [Np.int].
  fold (grid_index (GLA.grid_size s) a) in *.
  fold (grid_index (GLA.grid_size s) b) in *.
  fold (index_ok (GLA.grid_size s) (grid_index (GLA.grid_size s) a)
          (grid_index (GLA.grid_size s) b)).
  destruct (index_ok _ _ _) eqn:Hok; [ | eauto].
  apply index_ok_spec in Hok as [Hgx Hgy].
  destruct (getitem2_inrange (GLA.background s) dim dim
              (grid_index (GLA.grid_size s) b) (grid_index (GLA.grid_size s) a)
              Hbg) as (v & Hv & ->); [lia | lia | ].
  rewrite Hv in Hstore.
  rewrite (setitem2_cell img i j (Fin 0)) by assumption. eauto.
Qed.

Lemma lensed_row (i : nat) (img : ndarray) :
  i < dim -> loop_invariant s source_x source_y i 0 img ->
  exists img',
    Method.for_range (GLA.grid_size s)
      (fun j => GLA.lensed_pixel source_x source_y i j) img s = Ok (img', s)
    /\ loop_invariant s source_x source_y (Datatypes.S i) 0 img'.
Proof.
  intros Hi Hinv.
  destruct (for_range_invariant (loop_invariant s source_x source_y i)
              (fun j => GLA.lensed_pixel source_x source_y i j) s
              (GLA.grid_size s) img Hinv) as (img' & Hrun & [Hshape Hcells]).
  { intros k acc Hk. now apply lensed_pixel_step. }
  exists img'. split; [exact Hrun | ]. split; [exact Hshape | ].
  intros i' j' Hi' Hj'. rewrite (Hcells i' j' Hi' Hj'). f_equal.
  unfold passed.
  destruct (Nat.ltb_spec i' i), (Nat.ltb_spec i' (Datatypes.S i)),
    (Nat.eqb_spec i' i), (Nat.eqb_spec i' (Datatypes.S i)),
    (Nat.ltb_spec j' dim), (Nat.ltb_spec j' 0); cbn; (reflexivity || lia).
Qed.

Lemma lensed_loops (img : ndarray) :
  shape img dim dim ->
  (forall i j, i < dim -> j < dim -> cell img i j = Some (Fin 0)) ->
  exists img',
    Method.for_range (GLA.grid_size s) (fun i =>
      Method.for_range (GLA.grid_size s) (fun j =>
        GLA.lensed_pixel source_x source_y i j)) img s = Ok (img', s)
    /\ shape img' dim dim
    /\ forall i j, i < dim -> j < dim -> cell img' i j = Some (pixel_after s source_x source_y i j).
Proof.
  intros Hshape Hzero.
  destruct (for_range_invariant (fun i => loop_invariant s source_x source_y i 0)
              (fun i => Method.for_range (GLA.grid_size s) (fun j =>
                 GLA.lensed_pixel source_x source_y i j)) s
              (GLA.grid_size s) img) as (img' & Hrun & [Hs Hcells]).
  { split; [assumption | ]. intros i j Hi Hj. rewrite (Hzero i j Hi Hj).
    unfold passed. destruct (Nat.ltb_spec i 0); [lia | ].
    destruct (Nat.ltb_spec j 0); [lia | ]. now rewrite andb_false_r. }
  { intros k acc Hk. now apply lensed_row. }
  exists img'. split; [exact Hrun | ]. split; [exact Hs | ].
  intros i j Hi Hj. rewrite (Hcells i j Hi Hj). unfold passed.
  destruct (Nat.ltb_spec i dim); [reflexivity | lia].
Qed.

End LensedPixel.

Section LensedImage.

Local Open Scope nat_scope.

Variable s : GLA.t.
Hypothesis Hwf : well_formed s.
Variable rotation_angle : fval.

Lemma source_arrays_shape :
  shape (fst (source_arrays s rotation_angle)) (Z.to_nat (GLA.grid_size s)) (Z.to_nat (GLA.grid_size s))
  /\ shape (snd (source_arrays s rotation_angle)) (Z.to_nat (GLA.grid_size s)) (Z.to_nat (GLA.grid_size s)).
Proof.
  destruct Hwf as (_ & HX & HY & _).
  unfold source_arrays, BlackHolePhysics.gravitational_lensing_nd,
    Np.add, Np.sub, Np.muls. cbn [fst snd].
  split; repeat first [apply shape_zip2d | apply shape_map2d | assumption].
Qed.

Lemma source_arrays_cell i j x y :
  cell (GLA.X s) i j = Some x -> cell (GLA.Y s) i j = Some y ->
  cell (fst (source_arrays s rotation_angle)) i j
    = Some (fst (source_position (GLA.black_hole s) x y rotation_angle))
  /\ cell (snd (source_arrays s rotation_angle)) i j
    = Some (snd (source_position (GLA.black_hole s) x y rotation_angle)).
Proof.
  intros Hx Hy.
  unfold source_arrays, BlackHolePhysics.gravitational_lensing_nd,
    Np.add, Np.sub, Np.muls, source_position. cbn [fst snd].
  rewrite !cell_zip2d, !cell_map2d, !cell_zip2d, Hx, Hy. cbn. split; reflexivity.
Qed.

Lemma calculate_lensed_image_cells :
  exists img,
    GLA.calculate_lensed_image rotation_angle s = Ok (img, s)
    /\ shape img (Z.to_nat (GLA.grid_size s)) (Z.to_nat (GLA.grid_size s))
    /\ forall i j x y r,
         cell (GLA.X s) i j = Some x -> cell (GLA.Y s) i j = Some y ->
         cell (GLA.R s) i j = Some r ->
         cell img i j
         = Some (lensed_value s
                   (fst (source_position (GLA.black_hole s) x y rotation_angle))
                   (snd (source_position (GLA.black_hole s) x y rotation_angle))
                   r).
Proof.
  destruct source_arrays_shape as [Hsx Hsy].
  pose proof Hwf as (_ & HX & HY & HR & _).
  destruct (lensed_loops s Hwf (fst (source_arrays s rotation_angle)) (snd (source_arrays s rotation_angle)) Hsx Hsy
              (Np.zeros_like (GLA.X s))) as (img & Hrun & Hshape & Hcells).
  { now apply shape_map2d. }
  { intros i j Hi Hj. unfold Np.zeros_like. rewrite cell_map2d.
    destruct (shape_cell _ _ _ i j HX Hi Hj) as [x ->]. reflexivity. }
  exists img. split; [ | split; [exact Hshape | ]].
  - unfold GLA.calculate_lensed_image, Method.bind at 1, Method.get.
    exact Hrun.
  - intros i j x y r Hx Hy Hr.
    destruct (cell_in_shape _ _ _ _ _ _ HX Hx) as [Hi Hj].
    rewrite (Hcells i j Hi Hj). unfold pixel_after.
    destruct (source_arrays_cell i j x y Hx Hy) as [-> ->]. now rewrite Hr.
Qed.

End LensedImage.

(* ===================================================================== *)
(** ** The rendering methods only read the object *)
(* ===================================================================== *)

Ltac read_only_steps :=
  repeat first
    [ apply read_only_ret | apply read_only_get | apply read_only_lift
    | apply read_only_for_each | apply read_only_if
    | apply read_only_bind | intro ].

Lemma lensed_pixel_read_only source_x source_y i j img :
  read_only (GLA.lensed_pixel source_x source_y i j img).
Proof. unfold GLA.lensed_pixel. read_only_steps. Qed.

Lemma calculate_lensed_image_read_only rotation_angle :
  read_only (GLA.calculate_lensed_image rotation_angle).
Proof.
  unfold GLA.calculate_lensed_image. apply read_only_bind; [apply read_only_get | ].
  intros self. cbn zeta. unfold Method.for_range.
  apply read_only_for_each. intros i acc.
  apply read_only_for_each. intros j acc'. apply lensed_pixel_read_only.
Qed.

Lemma apply_relativistic_effects_read_only image rotation_angle :
  read_only (GLA.apply_relativistic_effects image rotation_angle).
Proof.
  unfold GLA.apply_relativistic_effects.
  apply read_only_bind; [apply read_only_get | ]. intros self. apply read_only_ret.
Qed.

Lemma create_photon_sphere_glow_read_only rotation_angle :
  read_only (GLA.create_photon_sphere_glow rotation_angle).
Proof.
  unfold GLA.create_photon_sphere_glow.
  apply read_only_bind; [apply read_only_get | ]. intros self. apply read_only_ret.
Qed.

Lemma render_frame_read_only rotation_angle :
  read_only (render_frame rotation_angle).
Proof.
  unfold render_frame.
  apply read_only_bind; [apply calculate_lensed_image_read_only | intros lensed].
  apply read_only_bind; [apply apply_relativistic_effects_read_only | intros rel].
  apply read_only_bind; [apply create_photon_sphere_glow_read_only | intros glow].
  apply read_only_bind; [apply read_only_get | intros sim]. apply read_only_ret.
Qed.

(* ===================================================================== *)
(** ** Cells of the compositing steps *)
(* ===================================================================== *)

Ltac cells := repeat first [rewrite cell_map2d | rewrite cell_zip2d].

Section Compositing.

Local Open Scope nat_scope.

Variable s : GLA.t.
Variable rotation_angle : fval.

Local Abbreviation dim := (Z.to_nat (GLA.grid_size s)).
Local Abbreviation bh := (GLA.black_hole s).

Lemma apply_relativistic_effects_cells (image : ndarray) :
  exists out,
    GLA.apply_relativistic_effects image rotation_angle s = Ok (out, s)
    /\ (shape image dim dim -> well_formed s -> shape out dim dim)
    /\ forall i j x y r v,
         cell (GLA.X s) i j = Some x -> cell (GLA.Y s) i j = Some y ->
         cell (GLA.R s) i j = Some r -> cell image i j = Some v ->
         cell out i j = Some (relativistic_value bh x y r v rotation_angle).
Proof.
  unfold GLA.apply_relativistic_effects, Method.bind, Method.get, Method.ret,
    BlackHolePhysics.schwarzschild_metric_effects_nd.
  cbv beta iota zeta.
  eexists. split; [reflexivity | ]. split.
  - intros Himg (_ & HX & HY & HR & _).
    unfold Np.clip, Np.mul, Np.where_, Np.gts, Np.sadd, Np.sdiv, Np.pow,
      BlackHolePhysics.doppler_shift_nd.
    repeat first [apply shape_zip2d | apply shape_map2d | assumption].
  - intros i j x y r v Hx Hy Hr Hv.
    unfold Np.clip, Np.mul, Np.where_, Np.gts, Np.sadd, Np.sdiv, Np.pow,
      BlackHolePhysics.doppler_shift_nd.
    cells. rewrite Hx, Hy, Hr, Hv.
    cbn. unfold relativistic_value. destruct (F.gtb r _); reflexivity.
Qed.

Lemma create_photon_sphere_glow_cells :
  exists out,
    GLA.create_photon_sphere_glow rotation_angle s = Ok (out, s)
    /\ (well_formed s -> shape out dim dim)
    /\ forall i j x y r,
         cell (GLA.X s) i j = Some x -> cell (GLA.Y s) i j = Some y ->
         cell (GLA.R s) i j = Some r ->
         cell out i j = Some (glow_value bh x y r rotation_angle).
Proof.
  unfold GLA.create_photon_sphere_glow, Method.bind, Method.get, Method.ret.
  cbv beta iota zeta.
  eexists. split; [reflexivity | ]. split.
  - intros (_ & HX & HY & HR & _).
    unfold Np.mul, Np.muls, Np.exp, Np.divs, Np.neg, Np.pow, Np.abs, Np.subs,
      Np.sadd, Np.smul, Np.sin, Np.adds, Np.arctan2.
    repeat first [apply shape_zip2d | apply shape_map2d | assumption].
  - intros i j x y r Hx Hy Hr.
    unfold Np.mul, Np.muls, Np.exp, Np.divs, Np.neg, Np.pow, Np.abs, Np.subs,
      Np.sadd, Np.smul, Np.sin, Np.adds, Np.arctan2.
    cells. rewrite Hx, Hy, Hr. reflexivity.
Qed.

Hypothesis Hwf : well_formed s.

Lemma render_frame_cells :
  exists out,
    render_frame rotation_angle s = Ok (out, s)
    /\ shape out dim dim
    /\ forall i j x y r,
         cell (GLA.X s) i j = Some x -> cell (GLA.Y s) i j = Some y ->
         cell (GLA.R s) i j = Some r ->
         cell out i j
         = Some (final_value bh x y r
                   (lensed_value s
                      (fst (source_position bh x y rotation_angle))
                      (snd (source_position bh x y rotation_angle)) r)
                   rotation_angle).
Proof.
  destruct (calculate_lensed_image_cells s Hwf rotation_angle)
    as (lensed & Hrun1 & Hshape1 & Hcells1).
  destruct (apply_relativistic_effects_cells lensed)
    as (rel & Hrun2 & Hshape2 & Hcells2).
  destruct create_photon_sphere_glow_cells as (glow & Hrun3 & Hshape3 & Hcells3).
  pose proof Hwf as (_ & HX & HY & HR & _).
  eexists. split; [ | split].
  - unfold render_frame, Method.bind. rewrite Hrun1, Hrun2, Hrun3. reflexivity.
  - unfold Np.mask_assign, Np.les, Np.add.
    repeat first [apply shape_zip2d | apply shape_map2d | assumption | auto].
  - intros i j x y r Hx Hy Hr.
    unfold Np.mask_assign, Np.les, Np.add.
    cells.
    rewrite (Hcells2 i j x y r _ Hx Hy Hr (Hcells1 i j x y r Hx Hy Hr)).
    rewrite (Hcells3 i j x y r Hx Hy Hr), Hr. cbn. unfold final_value.
    destruct (F.leb r _); reflexivity.
Qed.

End Compositing.

(* ===================================================================== *)
(** ** Properties of every renderer state *)
(* ===================================================================== *)

Lemma well_formed_cells (s : GLA.t) (i j : nat) :
  well_formed s ->
  (i < Z.to_nat (GLA.grid_size s))%nat -> (j < Z.to_nat (GLA.grid_size s))%nat ->
  exists x y r,
    cell (GLA.X s) i j = Some x /\ cell (GLA.Y s) i j = Some y
    /\ cell (GLA.R s) i j = Some r.
Proof.
  intros (_ & HX & HY & HR & _) Hi Hj.
  destruct (shape_cell _ _ _ i j HX Hi Hj) as [x Hx].
  destruct (shape_cell _ _ _ i j HY Hi Hj) as [y Hy].
  destruct (shape_cell _ _ _ i j HR Hi Hj) as [r Hr].
  eauto 7.
Qed.

(** C2.  In every renderer state and for every rotation phase, every cell
    of the frame whose radius satisfies r <= rs is exactly 0 (the mask is
    applied after the photon ring has been added), and every cell with
    r < 1.1 rs is already 0 in the image returned by
    [calculate_lensed_image]. *)
Theorem horizon_cells_are_zero (s : GLA.t) (rotation_angle : fval) :
  well_formed s ->
  exists lensed out,
    GLA.calculate_lensed_image rotation_angle s = Ok (lensed, s)
    /\ render_frame rotation_angle s = Ok (out, s)
    /\ forall i j r,
         cell (GLA.R s) i j = Some r ->
         (F.leb r (BlackHolePhysics.rs (GLA.black_hole s)) = true ->
            cell out i j = Some (Fin 0))
         /\ (F.ltb r (BlackHolePhysics.rs (GLA.black_hole s) * Fin 1.1)%fv = true ->
            cell lensed i j = Some (Fin 0)).
Proof.
  intros Hwf.
  destruct (calculate_lensed_image_cells s Hwf rotation_angle)
    as (lensed & Hrun1 & _ & Hcells1).
  destruct (render_frame_cells s rotation_angle Hwf) as (out & Hrun & _ & Hcells).
  exists lensed, out. split; [exact Hrun1 | ]. split; [exact Hrun | ].
  intros i j r Hr.
  pose proof Hwf as (_ & _ & _ & HR & _).
  destruct (cell_in_shape _ _ _ _ _ _ HR Hr) as [Hi Hj].
  destruct (well_formed_cells s i j Hwf Hi Hj) as (x & y & r' & Hx & Hy & Hr').
  assert (r' = r) by congruence. subst r'.
  split; intros Hin.
  - rewrite (Hcells i j x y r Hx Hy Hr). unfold final_value. now rewrite Hin.
  - rewrite (Hcells1 i j x y r Hx Hy Hr). unfold lensed_value. now rewrite Hin.
Qed.

(* ===================================================================== *)
(** ** The lookup whatever the index computed *)
(* ===================================================================== *)

Section LensedPixelWith.

Local Open Scope nat_scope.

Variable to_index : Z -> fval -> result Z.
Variable s : GLA.t.
Hypothesis Hwf : well_formed s.
Hypothesis Htot : index_total to_index (GLA.grid_size s).
Variables source_x source_y : ndarray.

Local Abbreviation dim := (Z.to_nat (GLA.grid_size s)).

Hypothesis Hsx : shape source_x dim dim.
Hypothesis Hsy : shape source_y dim dim.

Lemma passed_next (i j i' j' : nat) :
  i' <> i \/ j' <> j -> passed i (S j) i' j' = passed i j i' j'.
Proof.
  intros Hne. unfold passed.
  destruct (Nat.ltb_spec i' i); [reflexivity | ]. cbn [orb].
  destruct (Nat.eqb_spec i' i); [ | reflexivity]. cbn [andb].
  destruct (Nat.ltb_spec j' j), (Nat.ltb_spec j' (S j)); (reflexivity || lia).
Qed.

Lemma passed_here (i j : nat) :
  passed i j i j = false /\ passed i (S j) i j = true.
Proof.
  unfold passed. rewrite Nat.ltb_irrefl, Nat.eqb_refl, Nat.ltb_irrefl.
  destruct (Nat.ltb_spec j (S j)); [split; reflexivity | lia].
Qed.

Lemma lensed_pixel_with_step (i j : nat) (img : ndarray) :
  i < dim -> j < dim ->
  loop_invariant_with to_index s source_x source_y i j img ->
  exists img',
    lensed_pixel_with to_index source_x source_y i j img s = Ok (img', s)
    /\ loop_invariant_with to_index s source_x source_y i (S j) img'.
Proof.
  intros Hi Hj [Hshape Hcells].
  destruct Hwf as (Hn & HX & HY & HR & Hbg).
  destruct (shape_cell source_x dim dim i j Hsx Hi Hj) as [sx Hcx].
  destruct (shape_cell source_y dim dim i j Hsy Hi Hj) as [sy Hcy].
  destruct (shape_cell (GLA.R s) dim dim i j HR Hi Hj) as [r Hcr].
  destruct (passed_here i j) as [Hbefore Hafter].
  assert (Hzero : cell img i j = Some (Fin 0)).
  { rewrite (Hcells i j Hi Hj), Hbefore. reflexivity. }
  assert (Hstore : forall v,
            v = pixel_after_with to_index s source_x source_y i j ->
            loop_invariant_with to_index s source_x source_y i (S j)
              (update2 img i j v)).
  { intros v ->. split; [now apply shape_update2 | ].
    intros i' j' Hi' Hj'.
    destruct (decide (i' = i /\ j' = j)) as [[-> ->] | Hne].
    - rewrite (cell_update2_eq img i j (Fin 0)) by assumption.
      now rewrite Hafter.
    - rewrite cell_update2_ne by lia. rewrite (Hcells i' j' Hi' Hj').
      now rewrite passed_next by lia. }
  assert (Hkeep : Fin 0 = pixel_after_with to_index s source_x source_y i j ->
            loop_invariant_with to_index s source_x source_y i (S j) img).
  { intros Hv. split; [assumption | ].
    intros i' j' Hi' Hj'. rewrite (Hcells i' j' Hi' Hj').
    destruct (decide (i' = i /\ j' = j)) as [[-> ->] | Hne].
    - rewrite Hbefore, Hafter. now rewrite <- Hv.
    - now rewrite passed_next by lia. }
  unfold lensed_pixel_with, Method.bind, Method.get, Method.lift, Method.ret.
  rewrite (getitem2_cell _ _ _ _ Hcx), (getitem2_cell _ _ _ _ Hcy),
          (getitem2_cell _ _ _ _ Hcr).
  unfold pixel_after_with in Hstore, Hkeep.
  rewrite Hcx, Hcy, Hcr in Hstore, Hkeep.
  unfold lensed_value_with in Hstore, Hkeep. fold (in_domain sx sy).
  destruct (F.ltb r _).
  { rewrite (setitem2_cell img i j (Fin 0)) by assumption. eauto. }
  destruct (in_domain sx sy) eqn:Hdom; [ | eauto].
  pose proof Hdom as Hdom'. unfold in_domain in Hdom'.
  apply andb_prop in Hdom' as [Hdx Hdy].
  destruct (Htot sx Hdx) as [gx Hgx]. destruct (Htot sy Hdy) as [gy Hgy].
  rewrite Hgx, Hgy in Hstore, Hkeep. rewrite Hgx, Hgy.
  fold (index_ok (GLA.grid_size s) gx gy).
  destruct (index_ok _ _ _) eqn:Hok; [ | eauto].
  apply index_ok_spec in Hok as [Hokx Hoky].
  destruct (getitem2_inrange (GLA.background s) dim dim gy gx Hbg)
    as (v & Hv & ->); [lia | lia | ].
  rewrite Hv in Hstore.
  rewrite (setitem2_cell img i j (Fin 0)) by assumption. eauto.
Qed.

Lemma lensed_loops_with_cells :
  exists img,
    lensed_loops_with to_index source_x source_y s = Ok (img, s)
    /\ shape img dim dim
    /\ forall i j, i < dim -> j < dim ->
         cell img i j = Some (pixel_after_with to_index s source_x source_y i j).
Proof.
  pose proof Hwf as (_ & HX & _).
  destruct (for_range_invariant
              (fun i => loop_invariant_with to_index s source_x source_y i 0)
              (fun i => Method.for_range (GLA.grid_size s) (fun j =>
                 lensed_pixel_with to_index source_x source_y i j)) s
              (GLA.grid_size s) (Np.zeros_like (GLA.X s)))
    as (img & Hrun & [Hs Hcells]).
  { split; [now apply shape_map2d | ]. intros i j Hi Hj.
    unfold Np.zeros_like. rewrite cell_map2d.
    destruct (shape_cell _ _ _ i j HX Hi Hj) as [x ->].
    unfold passed. destruct (Nat.ltb_spec i 0); [lia | ].
    destruct (Nat.ltb_spec j 0); [lia | ]. now rewrite andb_false_r. }
  { intros i acc Hi Hinv.
    destruct (for_range_invariant
                (loop_invariant_with to_index s source_x source_y i)
                (fun j => lensed_pixel_with to_index source_x source_y i j) s
                (GLA.grid_size s) acc Hinv) as (img' & Hrun & [Hshape Hcells]).
    { intros k acc' Hk. now apply lensed_pixel_with_step. }
    exists img'. split; [exact Hrun | ]. split; [exact Hshape | ].
    intros i' j' Hi' Hj'. rewrite (Hcells i' j' Hi' Hj'). f_equal.
    unfold passed.
    destruct (Nat.ltb_spec i' i), (Nat.ltb_spec i' (S i)),
      (Nat.eqb_spec i' i), (Nat.eqb_spec i' (S i)),
      (Nat.ltb_spec j' dim), (Nat.ltb_spec j' 0); cbn; (reflexivity || lia). }
  exists img. split; [ | split; [exact Hs | ]].
  - unfold lensed_loops_with, Method.bind, Method.get. exact Hrun.
  - intros i j Hi Hj. rewrite (Hcells i j Hi Hj). unfold passed.
    destruct (Nat.ltb_spec i dim); [reflexivity | lia].
Qed.

End LensedPixelWith.

Lemma exact_index_total (n : Z) : index_total exact_index n.
Proof.
  intros v Hv. destruct v as [a | | | ]; try discriminate.
  unfold exact_index. autorewrite with fv. rewrite div_fin by lra.
  eexists. reflexivity.
Qed.

Lemma calculate_lensed_image_is_loops (s : GLA.t) (rotation_angle : fval) :
  GLA.calculate_lensed_image rotation_angle s
  = lensed_loops_with exact_index
      (fst (source_arrays s rotation_angle))
      (snd (source_arrays s rotation_angle)) s.
Proof. reflexivity. Qed.

(** C7.  In every renderer state [calculate_lensed_image] is the two loops
    run with the index [int((coord + 8) * N / 16)], and it returns an
    image, never an exception, for every rotation angle (NaN and the
    infinities included).  The loops are safe whatever index that
    computation yields (exact, or rounded up to N as doubles can), on any
    source arrays of the grid's shape: they return an image; a cell whose
    source position is outside the domain holds 0; a cell whose index is
    outside [0, N) holds 0 (no [IndexError], and a negative index does not
    wrap around); a cell that holds anything else holds the background
    value at the two indices computed, both inside [0, N); and outside the
    horizon margin a cell with its source in the domain and its indices in
    range holds exactly that background value. *)
Theorem background_lookup_is_safe
    (s : GLA.t) (to_index : Z -> fval -> result Z)
    (source_x source_y : ndarray) :
  well_formed s ->
  index_total to_index (GLA.grid_size s) ->
  shape source_x (Z.to_nat (GLA.grid_size s)) (Z.to_nat (GLA.grid_size s)) ->
  shape source_y (Z.to_nat (GLA.grid_size s)) (Z.to_nat (GLA.grid_size s)) ->
  (exists img,
     lensed_loops_with to_index source_x source_y s = Ok (img, s)
     /\ forall i j sx sy r,
          cell source_x i j = Some sx -> cell source_y i j = Some sy ->
          cell (GLA.R s) i j = Some r ->
          exists v,
            cell img i j = Some v
            /\ (in_domain sx sy = false -> v = Fin 0)
            /\ (forall gx gy,
                  to_index (GLA.grid_size s) sx = Ok gx ->
                  to_index (GLA.grid_size s) sy = Ok gy ->
                  index_ok (GLA.grid_size s) gx gy = false ->
                  v = Fin 0)
            /\ (v <> Fin 0 ->
                  exists gx gy,
                    to_index (GLA.grid_size s) sx = Ok gx
                    /\ to_index (GLA.grid_size s) sy = Ok gy
                    /\ (0 <= gx < GLA.grid_size s)%Z
                    /\ (0 <= gy < GLA.grid_size s)%Z
                    /\ cell (GLA.background s) (Z.to_nat gy) (Z.to_nat gx)
                       = Some v)
            /\ (F.ltb r (BlackHolePhysics.rs (GLA.black_hole s) * Fin 1.1)%fv
                = false ->
                in_domain sx sy = true ->
                forall gx gy,
                  to_index (GLA.grid_size s) sx = Ok gx ->
                  to_index (GLA.grid_size s) sy = Ok gy ->
                  index_ok (GLA.grid_size s) gx gy = true ->
                  cell (GLA.background s) (Z.to_nat gy) (Z.to_nat gx) = Some v))
  /\ forall rotation_angle,
       index_total exact_index (GLA.grid_size s)
       /\ shape (fst (source_arrays s rotation_angle))
            (Z.to_nat (GLA.grid_size s)) (Z.to_nat (GLA.grid_size s))
       /\ shape (snd (source_arrays s rotation_angle))
            (Z.to_nat (GLA.grid_size s)) (Z.to_nat (GLA.grid_size s))
       /\ GLA.calculate_lensed_image rotation_angle s
          = lensed_loops_with exact_index
              (fst (source_arrays s rotation_angle))
              (snd (source_arrays s rotation_angle)) s
       /\ exists img, GLA.calculate_lensed_image rotation_angle s = Ok (img, s).
Proof.
  intros Hwf Htot Hsx Hsy. split.
  - destruct (lensed_loops_with_cells to_index s Hwf Htot source_x source_y
                Hsx Hsy) as (img & Hrun & _ & Hcells).
    exists img. split; [exact Hrun | ].
    intros i j sx sy r Hcx Hcy Hcr.
    destruct (cell_in_shape _ _ _ _ _ _ Hsx Hcx) as [Hi Hj].
    pose proof Hwf as (_ & _ & _ & _ & Hbg).
    eexists. split; [exact (Hcells i j Hi Hj) | ].
    unfold pixel_after_with. rewrite Hcx, Hcy, Hcr. unfold lensed_value_with.
    destruct (F.ltb r _).
    { repeat split; try reflexivity; try discriminate.
      intros Hv. now contradiction Hv. }
    destruct (in_domain sx sy) eqn:Hdom.
    2: { repeat split; try reflexivity; try discriminate.
         intros Hv. now contradiction Hv. }
    pose proof Hdom as Hdom'. unfold in_domain in Hdom'.
    apply andb_prop in Hdom' as [Hdx Hdy].
    destruct (Htot sx Hdx) as [gx Hgx]. destruct (Htot sy Hdy) as [gy Hgy].
    rewrite Hgx, Hgy.
    destruct (index_ok (GLA.grid_size s) gx gy) eqn:Hok.
    + pose proof Hok as Hok'. apply index_ok_spec in Hok' as [Hokx Hoky].
      destruct (shape_cell _ _ _ (Z.to_nat gy) (Z.to_nat gx) Hbg) as [v Hv];
        [lia | lia | ].
      rewrite Hv. split; [discriminate | ]. split.
      { intros gx' gy' Hx' Hy'. injection Hx' as <-. injection Hy' as <-.
        congruence. }
      split.
      { intros _. exists gx, gy.
        exact (conj eq_refl (conj eq_refl (conj Hokx (conj Hoky Hv)))). }
      intros _ _ gx' gy' Hx' Hy' _. injection Hx' as <-. injection Hy' as <-.
      exact Hv.
    + split; [discriminate | ]. split; [reflexivity | ]. split.
      { intros Hv. now contradiction Hv. }
      intros _ _ gx' gy' Hx' Hy'. injection Hx' as <-. injection Hy' as <-.
      congruence.
  - intros rotation_angle.
    destruct (source_arrays_shape s Hwf rotation_angle) as [Hax Hay].
    split; [apply exact_index_total | ]. split; [exact Hax | ].
    split; [exact Hay | ]. split; [apply calculate_lensed_image_is_loops | ].
    destruct (lensed_loops_with_cells exact_index s Hwf
                (exact_index_total _) _ _ Hax Hay) as (img & Hrun & _).
    exists img. rewrite calculate_lensed_image_is_loops. exact Hrun.
Qed.

(** C9.  In every renderer state, running the frame pipeline twice with the
    same phase gives the same array both times, and the object (grid,
    background, physics parameters) is the same after each run as before:
    no counter, no randomness, no assignment to the object. *)
Theorem render_is_deterministic (s : GLA.t) (rotation_angle : fval) :
  well_formed s ->
  exists out,
    render_frame rotation_angle s = Ok (out, s)
    /\ (first <~ render_frame rotation_angle ;
        second <~ render_frame rotation_angle ;
        Method.ret (first, second)) s = Ok ((out, out), s).
Proof.
  intros Hwf.
  destruct (render_frame_cells s rotation_angle Hwf) as (out & Hrun & _).
  exists out. split; [exact Hrun | ].
  unfold Method.bind. rewrite Hrun, Hrun. reflexivity.
Qed.

Lemma render_is_deterministic_witness :
  exists s, GLA.init 1 = Ok s
    /\ exists out,
         render_frame (Fin 0) s = Ok (out, s)
         /\ (first <~ render_frame (Fin 0) ;
             second <~ render_frame (Fin 0) ;
             Method.ret (first, second)) s = Ok ((out, out), s).
Proof.
  eexists. split; [reflexivity | ].
  apply render_is_deterministic.
  unfold well_formed, shape. cbn. repeat split; try lia; repeat constructor.
Defined.

(* ===================================================================== *)
(** ** The constructor *)
(* ===================================================================== *)

Section Construction.

Local Open Scope nat_scope.

Lemma linspace_samples (n : Z) :
  (0 <= n)%Z ->
  exists l,
    Np.linspace (- Fin 8)%fv (Fin 8) n = Ok l
    /\ length l = Z.to_nat n
    /\ forall k, k < Z.to_nat n -> l !! k = Some (Fin (grid_coord n k)).
Proof.
  intros Hn. unfold Np.linspace.
  destruct (Z.ltb_spec n 0) as [ | _]; [lia | ].
  eexists. split; [reflexivity | ]. split.
  - destruct (Z.ltb_spec 1 n), (Z.ltb_spec 0 (n - 1));
      rewrite ?length_insert, !length_fmap, length_seq; reflexivity.
  - intros k Hk. unfold grid_coord.
    destruct (Z.ltb_spec 1 n) as [H1 | H1].
    + destruct (Z.ltb_spec 0 (n - 1)) as [_ | ]; [ | lia].
      assert (Hd : IZR (n - 1) <> 0%R) by (apply not_0_IZR; lia).
      destruct (decide (k = Z.to_nat (n - 1))) as [-> | Hne].
      * rewrite list_lookup_insert_eq
          by (rewrite !length_fmap, length_seq; lia).
        f_equal. f_equal. rewrite INR_IZR_INZ, Z2Nat.id by lia.
        field. exact Hd.
      * rewrite list_lookup_insert_ne by congruence.
        rewrite !list_lookup_fmap, lookup_seq_lt by lia.
        cbn [fmap option_fmap option_map Nat.add].
        autorewrite with fv. rewrite div_fin by exact Hd. autorewrite with fv.
        f_equal. f_equal. field. exact Hd.
    + destruct (Z.ltb_spec 0 (n - 1)); [lia | ].
      rewrite !list_lookup_fmap, lookup_seq_lt by lia.
      cbn [fmap option_fmap option_map Nat.add].
      assert (k = 0) by lia. subst k. cbn [INR]. autorewrite with fv.
      f_equal. f_equal. ring.
Qed.

Lemma meshgrid_shape (x y : list fval) :
  shape (fst (Np.meshgrid x y)) (length y) (length x)
  /\ shape (snd (Np.meshgrid x y)) (length y) (length x).
Proof.
  unfold Np.meshgrid, shape. cbn [fst snd]. rewrite !length_fmap.
  repeat split; rewrite Forall_fmap; apply Forall_true; intros row; cbn;
    [reflexivity | apply length_fmap].
Qed.

Lemma meshgrid_cells (x y : list fval) i j xv yv :
  x !! j = Some xv -> y !! i = Some yv ->
  cell (fst (Np.meshgrid x y)) i j = Some xv
  /\ cell (snd (Np.meshgrid x y)) i j = Some yv.
Proof.
  intros Hx Hy. unfold Np.meshgrid, cell. cbn [fst snd].
  rewrite !list_lookup_fmap, Hy. cbn.
  rewrite list_lookup_fmap, Hx. split; reflexivity.
Qed.

Lemma init_cells (n : Z) :
  (0 <= n)%Z ->
  exists s,
    GLA.init n = Ok s
    /\ GLA.grid_size s = n
    /\ GLA.black_hole s = BlackHolePhysics.init (Fin 2) (Fin 0.8)
    /\ well_formed s
    /\ forall i j, i < Z.to_nat n -> j < Z.to_nat n ->
         cell (GLA.X s) i j = Some (Fin (grid_coord n j))
         /\ cell (GLA.Y s) i j = Some (Fin (grid_coord n i))
         /\ cell (GLA.R s) i j
            = Some (Fin (radius (grid_coord n j) (grid_coord n i)))
         /\ cell (GLA.background s) i j
            = Some (Fin (background_formula (grid_coord n j) (grid_coord n i))).
Proof.
  intros Hn. destruct (linspace_samples n Hn) as (l & Hl & Hlen & Hsamples).
  unfold GLA.init.
  cbv beta iota zeta delta
    [GLA.setup_coordinates GLA.create_background_pattern GLA.set_XY GLA.set_R
     GLA.set_background Method.bind Method.get Method.put Method.lift
     GLA.grid_size GLA.black_hole GLA.X GLA.Y GLA.R GLA.background].
  rewrite Hl. cbv beta iota zeta.
  pose proof (meshgrid_shape l l) as [HsX HsY].
  pose proof (meshgrid_cells l l) as Hmesh.
  destruct (Np.meshgrid l l) as [vx vy]. cbn [fst snd] in HsX, HsY, Hmesh.
  rewrite Hlen in HsX, HsY.
  cbv beta iota zeta delta
    [GLA.grid_size GLA.black_hole GLA.X GLA.Y GLA.R GLA.background].
  eexists. split; [reflexivity | ].
  split; [reflexivity | ]. split; [reflexivity | ]. split.
  - unfold well_formed.
    cbv beta iota zeta delta
      [GLA.grid_size GLA.black_hole GLA.X GLA.Y GLA.R GLA.background].
    unfold Np.sqrt, Np.add, Np.pow, Np.sadd, Np.smul, Np.mul, Np.sin, Np.cos,
      Np.muls, Np.exp, Np.divs, Np.neg.
    refine (conj Hn (conj _ (conj _ (conj _ _))));
      repeat first [apply shape_zip2d | apply shape_map2d | assumption].
  - intros i j Hi Hj.
    cbv beta iota zeta delta
      [GLA.grid_size GLA.black_hole GLA.X GLA.Y GLA.R GLA.background].
    destruct (Hmesh i j _ _ (Hsamples j Hj) (Hsamples i Hi)) as [Hx Hy].
    unfold Np.sqrt, Np.add, Np.pow, Np.sadd, Np.smul, Np.mul, Np.sin, Np.cos,
      Np.muls, Np.exp, Np.divs, Np.neg.
    split; [exact Hx | ]. split; [exact Hy | ].
    cells. rewrite Hx, Hy. cbn [fmap option_fmap option_map].
    autorewrite with fv. rewrite sqrt_fin by apply sum_squares_nonneg.
    fold (radius (grid_coord n j) (grid_coord n i)).
    split; [reflexivity | ].
    autorewrite with fv. rewrite div_fin by lra. autorewrite with fv.
    f_equal. f_equal. unfold background_formula.
    set (x := grid_coord n j). set (y := grid_coord n i). set (r := radius x y).
    replace (x * 8 * 0.7)%R with (5.6 * x)%R by lra.
    replace (y * 8 * 1.3)%R with (10.4 * y)%R by lra.
    replace (x * 8)%R with (8 * x)%R by lra.
    replace (y * 8)%R with (8 * y)%R by lra.
    replace (r * 2)%R with (2 * r)%R by lra.
    reflexivity.
Qed.

End Construction.

(* ===================================================================== *)
(** ** Bounds on one cell *)
(* ===================================================================== *)

Lemma mul_nan_r (x : fval) : (x * NaN)%fv = NaN.
Proof. destruct x; reflexivity. Qed.

Section CellBounds.

Variable bh : BlackHolePhysics.t.
Variables mv av sv : R.
Hypothesis M_finite : BlackHolePhysics.M bh = Fin mv.
Hypothesis a_finite : BlackHolePhysics.a bh = Fin av.
Hypothesis rs_finite : BlackHolePhysics.rs bh = Fin sv.

Lemma ring_value_bounds (r : R) :
  exists g, ring_value bh (Fin r) = Fin g /\ 0 < g <= 2.
Proof.
  unfold ring_value. rewrite rs_finite. autorewrite with fv.
  rewrite div_fin by lra. autorewrite with fv.
  eexists. split; [reflexivity | ].
  set (t := - Rabs (r - 1.5 * sv) ^ 2 / 0.5).
  assert (Ht : t <= 0).
  { unfold t. pose proof (pow2_ge_0 (Rabs (r - 1.5 * sv))). lra. }
  pose proof (exp_pos t) as Hpos.
  assert (exp t <= 1).
  { rewrite <- exp_0. destruct Ht as [Ht | ->]; [ | lra].
    left. now apply exp_increasing. }
  lra.
Qed.

Lemma pattern_value_bounds (x y p : R) :
  exists q, pattern_value (Fin x) (Fin y) (Fin p) = Fin q /\ 0.5 <= q <= 1.5.
Proof.
  unfold pattern_value. destruct (arctan2_finite y x) as [phi ->].
  autorewrite with fv. eexists. split; [reflexivity | ].
  pose proof (SIN_bound (3 * phi + p * 4)). lra.
Qed.

Lemma glow_value_bounds (x y r p : R) :
  exists g q,
    ring_value bh (Fin r) = Fin g /\ 0 < g <= 2
    /\ pattern_value (Fin x) (Fin y) (Fin p) = Fin q /\ 0.5 <= q <= 1.5
    /\ glow_value bh (Fin x) (Fin y) (Fin r) (Fin p) = Fin (g * q)
    /\ 0 <= g * q <= 3.
Proof.
  destruct (ring_value_bounds r) as (g & Hg & Hgb).
  destruct (pattern_value_bounds x y p) as (q & Hq & Hqb).
  exists g, q. unfold glow_value. rewrite Hg, Hq.
  repeat split; try lra; try assumption; nra.
Qed.

Hypothesis rs_nonneg : 0 <= sv.


(** At the origin the Doppler factor is NaN and so is the clipped value. *)
Lemma relativistic_value_origin_nan (r v p : fval) :
  relativistic_value bh (Fin 0) (Fin 0) r v p = NaN.
Proof.
  unfold relativistic_value.
  rewrite (doppler_shift_origin_nan bh mv av M_finite a_finite).
  rewrite mul_nan_r. reflexivity.
Qed.

End CellBounds.

(* ===================================================================== *)
(** ** The frame of a constructed renderer, cell by cell *)
(* ===================================================================== *)

Section ConstructedRenderer.

Local Open Scope nat_scope.

Lemma lensed_value_finite (s : GLA.t) (sx sy r : fval) :
  well_formed s ->
  (forall i j, i < Z.to_nat (GLA.grid_size s) -> j < Z.to_nat (GLA.grid_size s) ->
     exists b : R, cell (GLA.background s) i j = Some (Fin b)) ->
  exists w : R, lensed_value s sx sy r = Fin w.
Proof.
  intros Hwf Hbg. unfold lensed_value.
  destruct (F.ltb r _); [eauto | ].
  destruct (in_domain sx sy) eqn:Hdom; [ | eauto].
  destruct (in_domain_finite sx sy Hdom) as (a & b & -> & ->). cbv zeta.
  destruct (index_ok _ _ _) eqn:Hok; [ | eauto].
  apply index_ok_spec in Hok as [Hgx Hgy].
  destruct (Hbg (Z.to_nat (grid_index (GLA.grid_size s) b))
                (Z.to_nat (grid_index (GLA.grid_size s) a))) as [w ->];
    [lia | lia | eauto].
Qed.

(** Every step of the pipeline on the renderer built with [grid_size = n],
    at the cell of row [i] and column [j]. *)
Lemma init_frame_cells (n : Z) (phase : R) :
  (0 <= n)%Z ->
  exists s lensed rel glow out,
    GLA.init n = Ok s
    /\ GLA.calculate_lensed_image (Fin phase) s = Ok (lensed, s)
    /\ GLA.apply_relativistic_effects lensed (Fin phase) s = Ok (rel, s)
    /\ GLA.create_photon_sphere_glow (Fin phase) s = Ok (glow, s)
    /\ render_frame (Fin phase) s = Ok (out, s)
    /\ shape out (Z.to_nat n) (Z.to_nat n)
    /\ forall i j, i < Z.to_nat n -> j < Z.to_nat n ->
         let x := grid_coord n j in
         let y := grid_coord n i in
         exists w : R,
           cell lensed i j = Some (Fin w)
           /\ cell rel i j
              = Some (relativistic_value renderer_black_hole (Fin x) (Fin y)
                        (Fin (radius x y)) (Fin w) (Fin phase))
           /\ cell glow i j
              = Some (glow_value renderer_black_hole (Fin x) (Fin y)
                        (Fin (radius x y)) (Fin phase))
           /\ cell out i j
              = Some (final_value renderer_black_hole (Fin x) (Fin y)
                        (Fin (radius x y)) (Fin w) (Fin phase)).
Proof.
  intros Hn.
  destruct (init_cells n Hn) as (s & Hinit & Hsize & Hbh & Hwf & Hgrid).
  destruct (calculate_lensed_image_cells s Hwf (Fin phase))
    as (lensed & Hrun1 & Hshape1 & Hcells1).
  destruct (apply_relativistic_effects_cells s (Fin phase) lensed)
    as (rel & Hrun2 & _ & Hcells2).
  destruct (create_photon_sphere_glow_cells s (Fin phase))
    as (glow & Hrun3 & _ & Hcells3).
  destruct (render_frame_cells s (Fin phase) Hwf) as (out & Hrun & Hshape & Hcells).
  exists s, lensed, rel, glow, out. rewrite Hsize in Hshape.
  repeat (split; [assumption | ]).
  intros i j Hi Hj x y.
  destruct (Hgrid i j Hi Hj) as (Hx & Hy & Hr & _). fold x y in Hx, Hy, Hr.
  destruct (lensed_value_finite s
              (fst (source_position (GLA.black_hole s) (Fin x) (Fin y) (Fin phase)))
              (snd (source_position (GLA.black_hole s) (Fin x) (Fin y) (Fin phase)))
              (Fin (radius x y)) Hwf) as [w Hw].
  { rewrite Hsize. intros i' j' Hi' Hj'.
    destruct (Hgrid i' j' Hi' Hj') as (_ & _ & _ & Hb). eauto. }
  pose proof (Hcells1 i j _ _ _ Hx Hy Hr) as Hl. rewrite Hw in Hl.
  exists w. split; [exact Hl | ]. unfold renderer_black_hole. rewrite <- Hbh.
  split; [exact (Hcells2 i j _ _ _ _ Hx Hy Hr Hl) | ].
  split; [exact (Hcells3 i j _ _ _ Hx Hy Hr) | ].
  rewrite (Hcells i j _ _ _ Hx Hy Hr), Hw. reflexivity.
Qed.

End ConstructedRenderer.

(* ===================================================================== *)
(** ** Range of the frame *)
(* ===================================================================== *)

Lemma renderer_black_hole_fields :
  BlackHolePhysics.M renderer_black_hole = Fin 2
  /\ BlackHolePhysics.a renderer_black_hole = Fin (0.8 * 2)
  /\ BlackHolePhysics.rs renderer_black_hole = Fin (2 * 2).
Proof. repeat split. Qed.







(* ===================================================================== *)
(** ** The photon ring *)
(* ===================================================================== *)

(** On the renderer built with any grid size, for every real phase, every
    cell of the glow is a number in [0, 3], the product of a ring
    intensity in (0, 2] and of a pattern in [0.5, 1.5]; and at every cell
    off the origin the clipped image plus the glow is a number at most
    5. *)
Lemma photon_sphere_glow_bounds (n : Z) (phase : R) :
  (0 <= n)%Z ->
  exists s lensed rel glow,
    GLA.init n = Ok s
    /\ GLA.calculate_lensed_image (Fin phase) s = Ok (lensed, s)
    /\ GLA.apply_relativistic_effects lensed (Fin phase) s = Ok (rel, s)
    /\ GLA.create_photon_sphere_glow (Fin phase) s = Ok (glow, s)
    /\ forall i j, (i < Z.to_nat n)%nat -> (j < Z.to_nat n)%nat ->
         let x := grid_coord n j in
         let y := grid_coord n i in
         (exists g q,
            ring_value renderer_black_hole (Fin (radius x y)) = Fin g
            /\ pattern_value (Fin x) (Fin y) (Fin phase) = Fin q
            /\ cell glow i j = Some (Fin (g * q))
            /\ 0 < g <= 2 /\ 0.5 <= q <= 1.5 /\ 0 <= g * q <= 3)
         /\ (x <> 0 \/ y <> 0 ->
             exists v, cell (Np.add rel glow) i j = Some (Fin v) /\ 0 <= v <= 5).
Proof.
  intros Hn.
  destruct (init_frame_cells n phase Hn)
    as (s & lensed & rel & glow & out & H1 & H2 & H3 & H4 & _ & _ & Hcells).
  exists s, lensed, rel, glow. repeat (split; [assumption | ]).
  intros i j Hi Hj x y.
  destruct (Hcells i j Hi Hj) as (w & _ & Hrel & Hglow & _). fold x y in Hrel, Hglow.
  destruct renderer_black_hole_fields as (HM & Ha & Hrs).
  destruct (glow_value_bounds renderer_black_hole (2 * 2) Hrs x y (radius x y) phase)
    as (g & q & Hg & Hgb & Hq & Hqb & Hgq & Hb).
  split.
  - exists g, q. rewrite Hglow, Hgq. repeat split; (assumption || lra).
  - intros Hxy. unfold Np.add. rewrite cell_zip2d, Hrel, Hglow, Hgq.
    pose proof (radius_pos x y Hxy) as Hr. fold (radius x y) in Hr.
    unfold relativistic_value.
    rewrite (time_dilation_eval renderer_black_hole (2 * 2) Hrs) by assumption.
    destruct (doppler_shift_bounds renderer_black_hole 2 (0.8 * 2) HM Ha x y phase Hxy)
      as (d & -> & _).
    rewrite Hrs, HM. unfold F.gtb. rewrite ltb_fin.
    destruct (Rlt_dec (2 * 2) (radius x y));
      autorewrite with fv; rewrite ?div_fin by (apply pow_nonzero; lra);
      autorewrite with fv;
      (eexists; split; [reflexivity | ]); unfold Rmin, Rmax;
      repeat match goal with
             | |- context [Rle_dec ?a ?b] => destruct (Rle_dec a b)
             end; lra.
Qed.

(** On the 3 x 3 grid the middle cell is the origin. *)
Lemma grid_3_cell_1_1 : grid_coord 3 1 = 0.
Proof.
  unfold grid_coord. change (1 <? 3)%Z with true. change (3 - 1)%Z with 2%Z.
  cbn [INR]. lra.
Qed.

(** C10 at the origin.  On the 3 x 3 grid the middle cell is the point
    (0, 0): there the clipped relativistic image is NaN, because the
    Doppler factor is, and so is its sum with the glow, before the final
    mask. *)
Theorem clipped_plus_glow_nan_at_origin :
  exists s lensed rel glow,
    GLA.init 3 = Ok s
    /\ GLA.calculate_lensed_image (Fin 0) s = Ok (lensed, s)
    /\ GLA.apply_relativistic_effects lensed (Fin 0) s = Ok (rel, s)
    /\ GLA.create_photon_sphere_glow (Fin 0) s = Ok (glow, s)
    /\ cell rel 1%nat 1%nat = Some NaN
    /\ cell (Np.add rel glow) 1%nat 1%nat = Some NaN.
Proof.
  destruct (init_frame_cells 3 0 ltac:(lia))
    as (s & lensed & rel & glow & out & H1 & H2 & H3 & H4 & _ & _ & Hcells).
  exists s, lensed, rel, glow. repeat (split; [assumption | ]).
  destruct (Hcells 1%nat 1%nat ltac:(cbn; lia) ltac:(cbn; lia))
    as (w & _ & Hrel & Hglow & _).
  rewrite grid_3_cell_1_1 in Hrel.
  destruct renderer_black_hole_fields as (HM & Ha & Hrs).
  rewrite (relativistic_value_origin_nan renderer_black_hole 2 (0.8 * 2) HM Ha)
    in Hrel.
  split; [exact Hrel | ].
  unfold Np.add. rewrite cell_zip2d, Hrel, Hglow. reflexivity.
Qed.

(* ===================================================================== *)
(** ** The background field *)
(* ===================================================================== *)

Lemma grid_coord_ends (n : Z) :
  (1 < n)%Z ->
  grid_coord n 0 = -8 /\ grid_coord n (Z.to_nat n - 1) = 8.
Proof.
  intros Hn. unfold grid_coord.
  destruct (Z.ltb_spec 1 n) as [_ | ]; [ | lia].
  assert (Hd : IZR (n - 1) <> 0) by (apply not_0_IZR; lia).
  split.
  - cbn [INR]. unfold Rdiv. ring.
  - replace (Z.to_nat n - 1)%nat with (Z.to_nat (n - 1)) by lia.
    rewrite INR_IZR_INZ, Z2Nat.id by lia. field. exact Hd.
Qed.

(** C8.  The constructor computes the background over the N x N grid that
    spans [-8, 8] on both axes (row = y, column = x) as
    0.5 + 0.3 sin(8x) sin(8y) + 0.2 sin(5.6x) cos(10.4y)
    + 0.2 sin(2r) exp(-r/10), and no operation of the renderer assigns it
    (or any other attribute) afterwards. *)
Theorem background_field_is_fixed (n : Z) :
  (0 <= n)%Z ->
  exists s,
    GLA.init n = Ok s
    /\ shape (GLA.background s) (Z.to_nat n) (Z.to_nat n)
    /\ (forall i j, (i < Z.to_nat n)%nat -> (j < Z.to_nat n)%nat ->
          cell (GLA.X s) i j = Some (Fin (grid_coord n j))
          /\ cell (GLA.Y s) i j = Some (Fin (grid_coord n i))
          /\ cell (GLA.background s) i j
             = Some (Fin (background_formula (grid_coord n j) (grid_coord n i))))
    /\ ((1 < n)%Z ->
          grid_coord n 0 = -8 /\ grid_coord n (Z.to_nat n - 1) = 8)
    /\ forall (rotation_angle : fval) (image v : ndarray) (s' : GLA.t),
         GLA.calculate_lensed_image rotation_angle s = Ok (v, s')
         \/ GLA.apply_relativistic_effects image rotation_angle s = Ok (v, s')
         \/ GLA.create_photon_sphere_glow rotation_angle s = Ok (v, s')
         \/ render_frame rotation_angle s = Ok (v, s') ->
         s' = s /\ GLA.background s' = GLA.background s.
Proof.
  intros Hn.
  destruct (init_cells n Hn) as (s & Hinit & Hsize & _ & Hwf & Hgrid).
  exists s. split; [exact Hinit | ]. split.
  { destruct Hwf as (_ & _ & _ & _ & Hbg). now rewrite Hsize in Hbg. }
  split.
  { intros i j Hi Hj. destruct (Hgrid i j Hi Hj) as (Hx & Hy & _ & Hb).
    repeat split; assumption. }
  split; [apply grid_coord_ends | ].
  intros rotation_angle image v s' Hrun.
  assert (s' = s); [ | now subst].
  destruct Hrun as [Hrun | [Hrun | [Hrun | Hrun]]].
  - exact (calculate_lensed_image_read_only _ _ _ _ Hrun).
  - exact (apply_relativistic_effects_read_only _ _ _ _ _ Hrun).
  - exact (create_photon_sphere_glow_read_only _ _ _ _ Hrun).
  - exact (render_frame_read_only _ _ _ _ Hrun).
Qed.

Lemma background_field_is_fixed_witness :
  exists s,
    GLA.init 2 = Ok s
    /\ cell (GLA.background s) 0%nat 1%nat
       = Some (Fin (background_formula (grid_coord 2 1) (grid_coord 2 0))).
Proof.
  destruct (background_field_is_fixed 2 ltac:(lia)) as (s & Hinit & _ & Hcells & _).
  exists s. split; [exact Hinit | ].
  destruct (Hcells 0%nat 1%nat ltac:(cbn; lia) ltac:(cbn; lia)) as (_ & _ & Hb).
  exact Hb.
Defined.

(* ===================================================================== *)
(** ** Construction does not validate *)
(* ===================================================================== *)

Lemma init_negative (n : Z) : (n < 0)%Z -> GLA.init n = Raise ValueError.
Proof.
  intros Hn. unfold GLA.init.
  cbv beta iota zeta delta
    [GLA.setup_coordinates Method.bind Method.get Method.lift GLA.grid_size].
  unfold Np.linspace. destruct (Z.ltb_spec n 0); [reflexivity | lia].
Qed.

(** C4 as the specification states it fails: a grid resolution of 0 is
    accepted, and so are a negative mass and a spin of 5. *)
Lemma invalid_configuration_is_accepted :
  (exists s, GLA.init 0 = Ok s /\ GLA.grid_size s = 0%Z
             /\ GLA.X s = [] /\ GLA.background s = [])
  /\ BlackHolePhysics.init (Fin (-1)) (Fin 5)
     = BlackHolePhysics.mk (Fin (-1)) (Fin (5 * -1)) (Fin (2 * -1)) (Fin 1).
Proof.
  split; [ | reflexivity].
  eexists. split; [reflexivity | ]. repeat split.
Qed.

(** C4, amended.  Construction validates nothing.  [BlackHolePhysics]
    accepts every mass and spin and stores M = mass, a = spin * mass,
    rs = 2 * mass as computed, with no clamping.  The renderer takes only
    [grid_size] (mass 2.0, spin 0.8 and the extent 8 are fixed): every
    [grid_size >= 0] is accepted, 0 included, and a negative one is
    rejected, with [ValueError], by [np.linspace]. *)
Theorem construction_does_not_validate :
  (forall mass spin : fval,
     BlackHolePhysics.init mass spin
     = BlackHolePhysics.mk mass (spin * mass)%fv (Fin 2 * mass)%fv (Fin 1))
  /\ (forall n : Z, (0 <= n)%Z ->
        exists s, GLA.init n = Ok s /\ GLA.grid_size s = n
                  /\ GLA.black_hole s = renderer_black_hole)
  /\ (forall n : Z, (n < 0)%Z -> GLA.init n = Raise ValueError).
Proof.
  split; [reflexivity | ]. split.
  - intros n Hn. destruct (init_cells n Hn) as (s & Hinit & Hsize & Hbh & _).
    exists s. repeat split; assumption.
  - exact init_negative.
Qed.

Lemma construction_does_not_validate_witness :
  (exists s, GLA.init 0 = Ok s /\ GLA.grid_size s = 0%Z
             /\ GLA.black_hole s = renderer_black_hole)
  /\ GLA.init (-1) = Raise ValueError.
Proof.
  destruct construction_does_not_validate as (_ & Hok & Hneg).
  split; [apply Hok; lia | apply Hneg; lia].
Defined.

(* ===================================================================== *)
(** * Further properties of the code *)
(* ===================================================================== *)

(* ===================================================================== *)
(** ** BlackHolePhysics: curvature, the floor, direction of the deflection *)
(* ===================================================================== *)

Lemma sqrt_hundredth : sqrt 0.01 = 0.1.
Proof.
  replace 0.01 with (0.1 * 0.1) by lra. apply sqrt_square. lra.
Qed.




(** At and inside the horizon, the centre included, the floor 0.01
    decides.  At r = 0 the quotient rs/r is +inf and [np.maximum] still
    returns the floor. *)
Lemma schwarzschild_floor_value (bh : BlackHolePhysics.t) (s r : R) :
  BlackHolePhysics.rs bh = Fin s -> 0 < s -> 0 <= r <= s ->
  BlackHolePhysics.schwarzschild_metric_effects bh (Fin r)
  = (Fin 0.1, Fin 100).
Proof.
  intros Hrs Hs [Hr0 Hrs'].
  assert (Hfloor : (F.maximum (Fin 1 - Fin s / Fin r) (Fin 0.01))%fv = Fin 0.01).
  { destruct (Req_dec_T r 0) as [-> | Hne].
    - rewrite div_zero_pos by lra. reflexivity.
    - rewrite div_fin by assumption. autorewrite with fv. f_equal.
      apply Rmax_right.
      assert (1 <= s / r); [ | lra].
      apply (Rmult_le_reg_r r); [lra | ].
      unfold Rdiv. rewrite Rmult_assoc, Rinv_l by assumption. lra. }
  unfold BlackHolePhysics.schwarzschild_metric_effects.
  rewrite Hrs, Hfloor, sqrt_fin, sqrt_hundredth, div_fin by lra.
  f_equal. f_equal. lra.
Qed.

(** X2.  [schwarzschild_metric_effects] called on an array, as the
    renderer calls it: at every cell at or inside the horizon, the centre
    included (0 <= r <= rs with rs > 0), the time dilation is 0.1 and the
    curvature 100.  At r = 0 nothing is raised and nothing is NaN. *)
Theorem schwarzschild_inside_horizon
    (bh : BlackHolePhysics.t) (s : R) (r : ndarray) (i j : nat) (v : R) :
  BlackHolePhysics.rs bh = Fin s -> 0 < s ->
  cell r i j = Some (Fin v) -> 0 <= v <= s ->
  cell (fst (BlackHolePhysics.schwarzschild_metric_effects_nd bh r)) i j
    = Some (Fin 0.1)
  /\ cell (snd (BlackHolePhysics.schwarzschild_metric_effects_nd bh r)) i j
    = Some (Fin 100).
Proof.
  intros Hrs Hs Hc Hv.
  unfold BlackHolePhysics.schwarzschild_metric_effects_nd. cbn [fst snd].
  rewrite !cell_map2d, Hc. cbn [fmap option_fmap option_map].
  rewrite (schwarzschild_floor_value bh s v Hrs Hs Hv). split; reflexivity.
Qed.

Lemma schwarzschild_inside_horizon_witness :
  cell (fst (BlackHolePhysics.schwarzschild_metric_effects_nd
               (BlackHolePhysics.init (Fin 2) (Fin 0.8)) [[Fin 0; Fin 3]]))
    0%nat 0%nat
  = Some (Fin 0.1).
Proof.
  apply (schwarzschild_inside_horizon _ (2 * 2) _ 0%nat 0%nat 0);
    [reflexivity | lra | reflexivity | lra].
Defined.

(** X3.  In exact arithmetic (the rounding of doubles aside), for a mass
    and a position within [magnitude_limit], the deflection returned by
    [gravitational_lensing] is a pair of numbers of absolute value at most
    40 |M|, at right angles to the position (x, y); and for a mass M >= 0
    it turns counter-clockwise around the centre: -y dx and x dy are both
    non-negative. *)
Theorem deflection_is_tangential
    (bh : BlackHolePhysics.t) (m x y : R) :
  BlackHolePhysics.M bh = Fin m ->
  Rabs m <= magnitude_limit ->
  Rabs x <= magnitude_limit -> Rabs y <= magnitude_limit ->
  exists dx dy : R,
    BlackHolePhysics.gravitational_lensing bh (Fin x) (Fin y) = (Fin dx, Fin dy)
    /\ Rabs dx <= 40 * Rabs m /\ Rabs dy <= 40 * Rabs m
    /\ x * dx + y * dy = 0
    /\ (0 <= m -> 0 <= - (y * dx) /\ 0 <= x * dy /\ 0 <= x * dy - y * dx).
Proof.
  intros HM _ _ _.
  destruct (gravitational_lensing_bounded bh m x y HM)
    as (dx & dy & Hd & Hbx & Hby).
  exists dx, dy. split; [exact Hd | ]. split; [exact Hbx | ].
  split; [exact Hby | ].
  rewrite (gravitational_lensing_eval bh m HM) in Hd.
  assert (Hdx : dx = - (4 * m / floored x y) * (y / floored x y)) by congruence.
  assert (Hdy : dy = 4 * m / floored x y * (x / floored x y)) by congruence.
  pose proof (floored_pos x y) as Hf. subst dx dy. split.
  - field. lra.
  - intros Hm.
    pose proof (pow2_ge_0 (/ floored x y)) as Hu.
    assert (Hy : 0 <= - (y * (- (4 * m / floored x y) * (y / floored x y)))).
    { replace (- (y * (- (4 * m / floored x y) * (y / floored x y))))
        with (4 * m * y ^ 2 * (/ floored x y) ^ 2) by (field; lra).
      pose proof (pow2_ge_0 y).
      apply Rmult_le_pos; [apply Rmult_le_pos; lra | assumption]. }
    assert (Hx : 0 <= x * (4 * m / floored x y * (x / floored x y))).
    { replace (x * (4 * m / floored x y * (x / floored x y)))
        with (4 * m * x ^ 2 * (/ floored x y) ^ 2) by (field; lra).
      pose proof (pow2_ge_0 x).
      apply Rmult_le_pos; [apply Rmult_le_pos; lra | assumption]. }
    split; [exact Hy | ]. split; [exact Hx | ]. lra.
Qed.

Lemma deflection_is_tangential_witness :
  exists dx dy : R,
    BlackHolePhysics.gravitational_lensing
      (BlackHolePhysics.init (Fin 1) (Fin 0.7)) (Fin 3) (Fin 4) = (Fin dx, Fin dy)
    /\ Rabs dx <= 40 * Rabs 1 /\ Rabs dy <= 40 * Rabs 1
    /\ 3 * dx + 4 * dy = 0
    /\ 0 <= - (4 * dx) /\ 0 <= 3 * dy.
Proof.
  destruct (deflection_is_tangential
              (BlackHolePhysics.init (Fin 1) (Fin 0.7)) 1 3 4 eq_refl
              (within_magnitude_limit 1 ltac:(lra))
              (within_magnitude_limit 3 ltac:(lra))
              (within_magnitude_limit 4 ltac:(lra)))
    as (dx & dy & H1 & H2 & H3 & H4 & H5).
  destruct (H5 ltac:(lra)) as (H6 & H7 & _).
  exists dx, dy.
  exact (conj H1 (conj H2 (conj H3 (conj H4 (conj H6 H7))))).
Defined.

(** X4.  For a mass and a spin within [magnitude_limit] and a point whose
    radius lies between 1 / [magnitude_limit] and [magnitude_limit] (the
    origin, where the factor is NaN, is excluded, and so are the radii
    whose square or cube leaves the range of doubles), for every finite
    rotation angle, [doppler_shift] returns a number in [0.3, 2.0]: a
    vanishing denominator gives an infinity, which [np.clip] brings back
    to a limit. *)
Theorem doppler_shift_range_off_origin (mass spin x y phase : R) :
  Rabs mass <= magnitude_limit -> Rabs spin <= magnitude_limit ->
  / magnitude_limit <= radius x y <= magnitude_limit ->
  exists d : R,
    BlackHolePhysics.doppler_shift
      (BlackHolePhysics.init (Fin mass) (Fin spin)) (Fin x) (Fin y) (Fin phase)
    = Fin d
    /\ 0.3 <= d <= 2.
Proof.
  intros _ _ [Hlo _].
  destruct magnitude_limit_bounds as (_ & Hinv & _).
  assert (Hxy : x <> 0 \/ y <> 0) by (apply off_origin; lra).
  apply doppler_shift_bounds with (m := mass) (a0 := spin * mass);
    [reflexivity | reflexivity | exact Hxy].
Qed.

Lemma radius_within_limit (x : R) :
  0.1 <= x <= 10 -> / magnitude_limit <= radius x 0 <= magnitude_limit.
Proof.
  intros Hx. destruct magnitude_limit_bounds as (Hl & Hinv & Hinv').
  rewrite radius_on_axis by lra. lra.
Qed.

Lemma doppler_shift_range_off_origin_witness :
  exists d : R,
    BlackHolePhysics.doppler_shift
      (BlackHolePhysics.init (Fin 2) (Fin 0.8)) (Fin 6) (Fin 0) (Fin 0) = Fin d
    /\ 0.3 <= d <= 2.
Proof.
  apply doppler_shift_range_off_origin.
  - apply within_magnitude_limit. lra.
  - apply within_magnitude_limit. lra.
  - apply radius_within_limit. lra.
Defined.

(** X5.  Without spin there is no Doppler effect: for spin 0, a mass
    within [magnitude_limit] and a point whose radius lies between
    1 / [magnitude_limit] and [magnitude_limit], the factor is exactly 1,
    whatever the rotation angle. *)
Theorem doppler_shift_without_spin (mass x y phase : R) :
  Rabs mass <= magnitude_limit ->
  / magnitude_limit <= radius x y <= magnitude_limit ->
  BlackHolePhysics.doppler_shift
    (BlackHolePhysics.init (Fin mass) (Fin 0)) (Fin x) (Fin y) (Fin phase)
  = Fin 1.
Proof.
  intros _ [Hlo _].
  destruct magnitude_limit_bounds as (_ & Hinv & _).
  assert (Hxy : x <> 0 \/ y <> 0) by (apply off_origin; lra).
  pose proof (radius_pos x y Hxy) as Hr.
  unfold BlackHolePhysics.doppler_shift, BlackHolePhysics.init.
  cbn [BlackHolePhysics.M BlackHolePhysics.a].
  autorewrite with fv. rewrite sqrt_fin by apply sum_squares_nonneg.
  destruct (arctan2_finite y x) as [phi ->].
  autorewrite with fv.
  assert (Hden : sqrt (x ^ 2 + y ^ 2) ^ 3
                 + (0 * mass) ^ 2 * sqrt (x ^ 2 + y ^ 2) <> 0).
  { assert (0 < sqrt (x ^ 2 + y ^ 2) ^ 3) by (apply pow_lt; assumption). lra. }
  rewrite div_fin by exact Hden. autorewrite with fv.
  set (q := 2 * mass * (0 * mass)
            / (sqrt (x ^ 2 + y ^ 2) ^ 3
               + (0 * mass) ^ 2 * sqrt (x ^ 2 + y ^ 2))).
  assert (Hq : q = 0) by (unfold q, Rdiv; ring).
  rewrite Hq. rewrite div_fin by lra. autorewrite with fv.
  f_equal.
  replace (1 / (1 + 0 * sqrt (x ^ 2 + y ^ 2) * sin (phi + phase))) with 1
    by (field; lra).
  unfold Rmin, Rmax.
  destruct (Rle_dec 1 0.3); [lra | ]. destruct (Rle_dec 1 2); lra.
Qed.

Lemma doppler_shift_without_spin_witness :
  BlackHolePhysics.doppler_shift
    (BlackHolePhysics.init (Fin 1) (Fin 0)) (Fin 1) (Fin 0) (Fin 2)
  = Fin 1.
Proof.
  apply doppler_shift_without_spin.
  - apply within_magnitude_limit. lra.
  - apply radius_within_limit. lra.
Defined.

(* ===================================================================== *)
(** ** The grid and the background of a constructed renderer *)
(* ===================================================================== *)

Section GridGeometry.

Variable n : Z.
Hypothesis Hn : (1 < n)%Z.

Lemma grid_coord_value (k : nat) :
  grid_coord n k = -8 + INR k * (16 / IZR (n - 1)).
Proof. unfold grid_coord. destruct (Z.ltb_spec 1 n); [reflexivity | lia]. Qed.

Lemma grid_step_pos : 0 < 16 / IZR (n - 1).
Proof.
  apply Rdiv_lt_0_compat; [lra | ]. apply IZR_lt. lia.
Qed.

Lemma grid_last_index : INR (Z.to_nat n - 1) = IZR (n - 1).
Proof.
  replace (Z.to_nat n - 1)%nat with (Z.to_nat (n - 1)) by lia.
  rewrite INR_IZR_INZ, Z2Nat.id by lia. reflexivity.
Qed.

Lemma grid_coord_bounds (k : nat) :
  (k < Z.to_nat n)%nat -> -8 <= grid_coord n k <= 8.
Proof.
  intros Hk. rewrite grid_coord_value.
  pose proof grid_step_pos as Hstep. pose proof (pos_INR k) as Hk0.
  assert (Hle : INR k <= IZR (n - 1)).
  { rewrite <- grid_last_index. apply le_INR. lia. }
  assert (Hd : IZR (n - 1) <> 0) by (apply not_0_IZR; lia).
  assert (Hfull : IZR (n - 1) * (16 / IZR (n - 1)) = 16) by (field; exact Hd).
  split; nra.
Qed.

Lemma grid_coord_mirror (k : nat) :
  (k < Z.to_nat n)%nat ->
  grid_coord n (Z.to_nat n - 1 - k) = - grid_coord n k.
Proof.
  intros Hk. rewrite !grid_coord_value.
  rewrite minus_INR by lia. rewrite grid_last_index.
  assert (Hd : IZR (n - 1) <> 0) by (apply not_0_IZR; lia).
  field. exact Hd.
Qed.

Lemma grid_coord_next (k : nat) :
  grid_coord n (S k) = grid_coord n k + 16 / IZR (n - 1).
Proof. rewrite !grid_coord_value, S_INR. ring. Qed.

End GridGeometry.

Lemma radius_swap (x y : R) : radius x y = radius y x.
Proof. unfold radius. f_equal. ring. Qed.

Lemma radius_on_grid (x y : R) :
  -8 <= x <= 8 -> -8 <= y <= 8 -> 0 <= radius x y <= sqrt 128.
Proof.
  intros Hx Hy. split; [apply sqrt_pos | ].
  unfold radius. apply sqrt_le_1_alt. nra.
Qed.

(** X6.  The grid built by [setup_coordinates], for every grid size: the
    coordinates lie in [-8, 8]; X is the transpose of Y (row = y, column =
    x, both from the same samples); R holds sqrt(x^2 + y^2), which lies in
    [0, sqrt 128], and R is a symmetric array. *)
Theorem grid_geometry (n : Z) :
  (0 <= n)%Z ->
  exists s,
    GLA.init n = Ok s
    /\ shape (GLA.X s) (Z.to_nat n) (Z.to_nat n)
    /\ shape (GLA.Y s) (Z.to_nat n) (Z.to_nat n)
    /\ shape (GLA.R s) (Z.to_nat n) (Z.to_nat n)
    /\ forall i j, (i < Z.to_nat n)%nat -> (j < Z.to_nat n)%nat ->
         exists x y : R,
           cell (GLA.X s) i j = Some (Fin x)
           /\ cell (GLA.Y s) i j = Some (Fin y)
           /\ -8 <= x <= 8 /\ -8 <= y <= 8
           /\ cell (GLA.Y s) j i = Some (Fin x)
           /\ cell (GLA.X s) j i = Some (Fin y)
           /\ cell (GLA.R s) i j = Some (Fin (radius x y))
           /\ cell (GLA.R s) j i = Some (Fin (radius x y))
           /\ 0 <= radius x y <= sqrt 128.
Proof.
  intros Hn.
  destruct (init_cells n Hn) as (s & Hinit & Hsize & _ & Hwf & Hgrid).
  exists s. split; [exact Hinit | ].
  destruct Hwf as (_ & HX & HY & HR & _). rewrite Hsize in HX, HY, HR.
  repeat (split; [assumption | ]).
  intros i j Hi Hj.
  destruct (Hgrid i j Hi Hj) as (Hx & Hy & Hr & _).
  destruct (Hgrid j i Hj Hi) as (Hx' & Hy' & Hr' & _).
  assert (Hb : forall k, (k < Z.to_nat n)%nat -> -8 <= grid_coord n k <= 8).
  { intros k Hk. destruct (Z.ltb_spec 1 n) as [H1 | H1].
    - now apply grid_coord_bounds.
    - unfold grid_coord. destruct (Z.ltb_spec 1 n); [lia | lra]. }
  exists (grid_coord n j), (grid_coord n i).
  rewrite radius_swap in Hr'.
  repeat (split; [solve [assumption | apply Hb; assumption] | ]).
  apply radius_on_grid; apply Hb; assumption.
Qed.

Lemma grid_geometry_witness :
  exists s,
    GLA.init 3 = Ok s
    /\ exists x y : R,
         cell (GLA.X s) 0%nat 2%nat = Some (Fin x)
         /\ cell (GLA.Y s) 2%nat 0%nat = Some (Fin x)
         /\ cell (GLA.R s) 0%nat 2%nat = Some (Fin (radius x y)).
Proof.
  destruct (grid_geometry 3 ltac:(lia)) as (s & Hinit & _ & _ & _ & Hcells).
  exists s. split; [exact Hinit | ].
  destruct (Hcells 0%nat 2%nat ltac:(cbn; lia) ltac:(cbn; lia))
    as (x & y & Hx & _ & _ & _ & Ht & _ & Hr & _).
  exists x, y. repeat split; assumption.
Defined.

(** X7.  In exact arithmetic the samples of [setup_coordinates], for a
    grid size N >= 2, grow by 16/(N-1) from one column to the next and are
    mirrored about 0: column N-1-j holds -x and row N-1-i holds -y. *)
Theorem grid_is_evenly_spaced_and_mirrored (n : Z) :
  (1 < n)%Z ->
  exists s,
    GLA.init n = Ok s
    /\ forall i j, (i < Z.to_nat n)%nat -> (j < Z.to_nat n)%nat ->
         exists x y : R,
           cell (GLA.X s) i j = Some (Fin x)
           /\ cell (GLA.Y s) i j = Some (Fin y)
           /\ cell (GLA.X s) i (Z.to_nat n - 1 - j) = Some (Fin (- x))
           /\ cell (GLA.Y s) (Z.to_nat n - 1 - i) j = Some (Fin (- y))
           /\ ((S j < Z.to_nat n)%nat ->
               cell (GLA.X s) i (S j) = Some (Fin (x + 16 / IZR (n - 1))))
           /\ ((S i < Z.to_nat n)%nat ->
               cell (GLA.Y s) (S i) j = Some (Fin (y + 16 / IZR (n - 1)))).
Proof.
  intros Hn.
  destruct (init_cells n ltac:(lia)) as (s & Hinit & _ & _ & _ & Hgrid).
  exists s. split; [exact Hinit | ]. intros i j Hi Hj.
  destruct (Hgrid i j Hi Hj) as (Hx & Hy & _).
  destruct (Hgrid i (Z.to_nat n - 1 - j)%nat Hi ltac:(lia)) as (Hxm & _).
  destruct (Hgrid (Z.to_nat n - 1 - i)%nat j ltac:(lia) Hj) as (_ & Hym & _).
  exists (grid_coord n j), (grid_coord n i).
  rewrite (grid_coord_mirror n Hn j Hj) in Hxm.
  rewrite (grid_coord_mirror n Hn i Hi) in Hym.
  repeat (split; [assumption | ]). split.
  - intros Hj'. destruct (Hgrid i (S j) Hi Hj') as (Hxn & _).
    rewrite (grid_coord_next n Hn) in Hxn. exact Hxn.
  - intros Hi'. destruct (Hgrid (S i) j Hi' Hj) as (_ & Hyn & _).
    rewrite (grid_coord_next n Hn) in Hyn. exact Hyn.
Qed.

Lemma grid_is_evenly_spaced_and_mirrored_witness :
  exists s,
    GLA.init 3 = Ok s
    /\ exists x : R,
         cell (GLA.X s) 0%nat 2%nat = Some (Fin x)
         /\ cell (GLA.X s) 0%nat 0%nat = Some (Fin (- x)).
Proof.
  destruct (grid_is_evenly_spaced_and_mirrored 3 ltac:(lia))
    as (s & Hinit & Hcells).
  exists s. split; [exact Hinit | ].
  destruct (Hcells 0%nat 2%nat ltac:(cbn; lia) ltac:(cbn; lia))
    as (x & y & Hx & _ & Hm & _).
  exists x. split; assumption.
Defined.

Lemma product_in_unit (a b : R) :
  -1 <= a <= 1 -> -1 <= b <= 1 -> -1 <= a * b <= 1.
Proof. intros Ha Hb. split; nra. Qed.

Lemma background_formula_range (x y : R) :
  -0.2 <= background_formula x y <= 1.2.
Proof.
  unfold background_formula.
  pose proof (product_in_unit _ _ (SIN_bound (8 * x)) (SIN_bound (8 * y))).
  pose proof (product_in_unit _ _ (SIN_bound (5.6 * x)) (COS_bound (10.4 * y))).
  assert (He : -1 <= exp (- radius x y / 10) <= 1).
  { pose proof (exp_pos (- radius x y / 10)).
    assert (exp (- radius x y / 10) <= 1); [ | lra].
    rewrite <- exp_0. pose proof (sqrt_pos (x ^ 2 + y ^ 2)) as Hr.
    fold (radius x y) in Hr.
    destruct (Req_dec_T (radius x y) 0) as [-> | Hne].
    - right. f_equal. lra.
    - left. apply exp_increasing. lra. }
  pose proof (product_in_unit _ _ (SIN_bound (2 * radius x y)) He).
  lra.
Qed.

(** X8.  Every cell of the background built by
    [create_background_pattern] is a number in [-0.2, 1.2], for every grid
    size. *)
Theorem background_range (n : Z) :
  (0 <= n)%Z ->
  exists s,
    GLA.init n = Ok s
    /\ forall i j, (i < Z.to_nat n)%nat -> (j < Z.to_nat n)%nat ->
         exists b : R,
           cell (GLA.background s) i j = Some (Fin b) /\ -0.2 <= b <= 1.2.
Proof.
  intros Hn.
  destruct (init_cells n Hn) as (s & Hinit & _ & _ & _ & Hgrid).
  exists s. split; [exact Hinit | ]. intros i j Hi Hj.
  destruct (Hgrid i j Hi Hj) as (_ & _ & _ & Hb).
  eexists. split; [exact Hb | apply background_formula_range].
Qed.

Lemma background_range_witness :
  exists s,
    GLA.init 2 = Ok s
    /\ exists b : R,
         cell (GLA.background s) 1%nat 0%nat = Some (Fin b) /\ -0.2 <= b <= 1.2.
Proof.
  destruct (background_range 2 ltac:(lia)) as (s & Hinit & Hcells).
  exists s. split; [exact Hinit | ].
  exact (Hcells 1%nat 0%nat ltac:(cbn; lia) ltac:(cbn; lia)).
Defined.

(** A pixel of the lensed image is 0 or a cell of the background. *)
Lemma lensed_value_cases (s : GLA.t) (sx sy r : fval) :
  well_formed s ->
  lensed_value s sx sy r = Fin 0
  \/ exists i j,
       (i < Z.to_nat (GLA.grid_size s))%nat
       /\ (j < Z.to_nat (GLA.grid_size s))%nat
       /\ cell (GLA.background s) i j = Some (lensed_value s sx sy r).
Proof.
  intros (_ & _ & _ & _ & Hbg). unfold lensed_value.
  destruct (F.ltb r _); [now left | ].
  destruct (in_domain sx sy) eqn:Hdom; [ | now left].
  destruct (in_domain_finite sx sy Hdom) as (a & b & -> & ->). cbv zeta.
  destruct (index_ok _ _ _) eqn:Hok; [ | now left].
  apply index_ok_spec in Hok as [Hgx Hgy].
  destruct (shape_cell _ _ _
              (Z.to_nat (grid_index (GLA.grid_size s) b))
              (Z.to_nat (grid_index (GLA.grid_size s) a)) Hbg)
    as [v Hv]; [lia | lia | ].
  right. eexists; eexists. rewrite Hv.
  split; [ | split; [ | reflexivity]]; lia.
Qed.

(** X9.  For every grid size and every rotation angle (NaN and the
    infinities included) the image returned by [calculate_lensed_image] has
    the shape of the grid and every cell of it is a number in [-0.2, 1.2]:
    0, or a value copied from the background. *)
Theorem lensed_image_range (n : Z) (rotation_angle : fval) :
  (0 <= n)%Z ->
  exists s img,
    GLA.init n = Ok s
    /\ GLA.calculate_lensed_image rotation_angle s = Ok (img, s)
    /\ shape img (Z.to_nat n) (Z.to_nat n)
    /\ forall i j, (i < Z.to_nat n)%nat -> (j < Z.to_nat n)%nat ->
         exists w : R,
           cell img i j = Some (Fin w) /\ -0.2 <= w <= 1.2
           /\ (w = 0 \/ exists i' j', cell (GLA.background s) i' j' = Some (Fin w)).
Proof.
  intros Hn.
  destruct (init_cells n Hn) as (s & Hinit & Hsize & _ & Hwf & Hgrid).
  destruct (calculate_lensed_image_cells s Hwf rotation_angle)
    as (img & Hrun & Hshape & Hcells).
  exists s, img. rewrite Hsize in Hshape.
  repeat (split; [assumption | ]).
  intros i j Hi Hj. destruct (Hgrid i j Hi Hj) as (Hx & Hy & Hr & _).
  pose proof (Hcells i j _ _ _ Hx Hy Hr) as Hc.
  match type of Hc with
  | _ = Some (lensed_value _ ?sx ?sy ?r) =>
      destruct (lensed_value_cases s sx sy r Hwf)
        as [H0 | (i' & j' & Hi' & Hj' & Hv)]
  end.
  - rewrite H0 in Hc. exists 0. split; [exact Hc | ]. split; [lra | now left].
  - rewrite Hsize in Hi', Hj'.
    destruct (Hgrid i' j' Hi' Hj') as (_ & _ & _ & Hb).
    pose proof Hb as Hb'. rewrite Hv in Hb'. apply (inj Some) in Hb'.
    rewrite Hb' in Hc.
    eexists. split; [exact Hc | ].
    split; [apply background_formula_range | ].
    right. exists i', j'. exact Hb.
Qed.

Lemma lensed_image_range_witness :
  exists s img,
    GLA.init 2 = Ok s
    /\ GLA.calculate_lensed_image NaN s = Ok (img, s)
    /\ exists w : R, cell img 0%nat 0%nat = Some (Fin w) /\ -0.2 <= w <= 1.2.
Proof.
  destruct (lensed_image_range 2 NaN ltac:(lia))
    as (s & img & Hinit & Hrun & _ & Hcells).
  exists s, img. split; [exact Hinit | ]. split; [exact Hrun | ].
  destruct (Hcells 0%nat 0%nat ltac:(cbn; lia) ltac:(cbn; lia))
    as (w & Hw & Hb & _).
  exists w. split; assumption.
Defined.

(* ===================================================================== *)
(** ** The pipeline on a constructed renderer, with every intermediate *)
(* ===================================================================== *)

(** The renderer built with [grid_size = n], the four images one frame
    goes through, and what each holds at the cell of row [i] and column
    [j]. *)
Lemma constructed_pipeline (n : Z) (rotation_angle : fval) :
  (0 <= n)%Z ->
  exists s lensed rel glow out,
    GLA.init n = Ok s
    /\ GLA.calculate_lensed_image rotation_angle s = Ok (lensed, s)
    /\ GLA.apply_relativistic_effects lensed rotation_angle s = Ok (rel, s)
    /\ GLA.create_photon_sphere_glow rotation_angle s = Ok (glow, s)
    /\ render_frame rotation_angle s = Ok (out, s)
    /\ forall i j, (i < Z.to_nat n)%nat -> (j < Z.to_nat n)%nat ->
         exists w : R,
           cell (GLA.X s) i j = Some (Fin (grid_coord n j))
           /\ cell (GLA.Y s) i j = Some (Fin (grid_coord n i))
           /\ cell (GLA.R s) i j
              = Some (Fin (radius (grid_coord n j) (grid_coord n i)))
           /\ lensed_value s
                (fst (source_position renderer_black_hole
                        (Fin (grid_coord n j)) (Fin (grid_coord n i))
                        rotation_angle))
                (snd (source_position renderer_black_hole
                        (Fin (grid_coord n j)) (Fin (grid_coord n i))
                        rotation_angle))
                (Fin (radius (grid_coord n j) (grid_coord n i)))
              = Fin w
           /\ cell lensed i j = Some (Fin w)
           /\ cell rel i j
              = Some (relativistic_value renderer_black_hole
                        (Fin (grid_coord n j)) (Fin (grid_coord n i))
                        (Fin (radius (grid_coord n j) (grid_coord n i)))
                        (Fin w) rotation_angle)
           /\ cell glow i j
              = Some (glow_value renderer_black_hole
                        (Fin (grid_coord n j)) (Fin (grid_coord n i))
                        (Fin (radius (grid_coord n j) (grid_coord n i)))
                        rotation_angle)
           /\ cell out i j
              = Some (final_value renderer_black_hole
                        (Fin (grid_coord n j)) (Fin (grid_coord n i))
                        (Fin (radius (grid_coord n j) (grid_coord n i)))
                        (Fin w) rotation_angle).
Proof.
  intros Hn.
  destruct (init_cells n Hn) as (s & Hinit & Hsize & Hbh & Hwf & Hgrid).
  destruct (calculate_lensed_image_cells s Hwf rotation_angle)
    as (lensed & Hrun1 & _ & Hcells1).
  destruct (apply_relativistic_effects_cells s rotation_angle lensed)
    as (rel & Hrun2 & _ & Hcells2).
  destruct (create_photon_sphere_glow_cells s rotation_angle)
    as (glow & Hrun3 & _ & Hcells3).
  destruct (render_frame_cells s rotation_angle Hwf) as (out & Hrun & _ & Hcells).
  exists s, lensed, rel, glow, out.
  repeat (split; [assumption | ]).
  intros i j Hi Hj.
  destruct (Hgrid i j Hi Hj) as (Hx & Hy & Hr & _).
  pose proof (Hcells1 i j _ _ _ Hx Hy Hr) as Hl.
  pose proof (Hcells2 i j _ _ _ _ Hx Hy Hr Hl) as Hrel.
  pose proof (Hcells3 i j _ _ _ Hx Hy Hr) as Hglow.
  pose proof (Hcells i j _ _ _ Hx Hy Hr) as Hout.
  rewrite Hbh in Hl, Hrel, Hglow, Hout. fold renderer_black_hole in *.
  match type of Hl with
  | _ = Some (lensed_value _ ?sx ?sy ?r) =>
      destruct (lensed_value_finite s sx sy r Hwf) as [w Hw]
  end.
  { rewrite Hsize. intros i' j' Hi' Hj'.
    destruct (Hgrid i' j' Hi' Hj') as (_ & _ & _ & Hb). eauto. }
  rewrite Hw in Hl, Hrel, Hout.
  exists w. repeat (split; [assumption | ]). exact Hout.
Qed.

Lemma clamp_0_2 (a : R) :
  0 <= Rmin (Rmax a 0) 2 <= 2 /\ (a = 0 -> Rmin (Rmax a 0) 2 = 0).
Proof.
  unfold Rmax. destruct (Rle_dec a 0); unfold Rmin;
    match goal with |- context [Rle_dec ?u ?v] => destruct (Rle_dec u v) end;
    split; intros; lra.
Qed.

(** Off the origin the clipped intensity is a number in [0, 2], and 0
    where the image is 0. *)
Lemma relativistic_value_off_origin (x y v p : R) :
  x <> 0 \/ y <> 0 ->
  exists c,
    relativistic_value renderer_black_hole (Fin x) (Fin y) (Fin (radius x y))
      (Fin v) (Fin p) = Fin c
    /\ 0 <= c <= 2 /\ (v = 0 -> c = 0).
Proof.
  intros Hxy. destruct renderer_black_hole_fields as (HM & Ha & Hrs).
  pose proof (radius_pos x y Hxy) as Hr. fold (radius x y) in Hr.
  unfold relativistic_value.
  rewrite (time_dilation_eval renderer_black_hole (2 * 2) Hrs) by assumption.
  destruct (doppler_shift_bounds renderer_black_hole 2 (0.8 * 2) HM Ha x y p Hxy)
    as (d & -> & _).
  rewrite Hrs, HM. unfold F.gtb. rewrite ltb_fin.
  destruct (Rlt_dec (2 * 2) (radius x y));
    autorewrite with fv; rewrite ?div_fin by (apply pow_nonzero; lra);
    autorewrite with fv;
    (eexists; split; [reflexivity | ]);
    match goal with
    | |- context [Rmin (Rmax ?a 0) 2] =>
        destruct (clamp_0_2 a) as [Hb Hz]
    end;
    (split; [exact Hb | intros ->; apply Hz; ring]).
Qed.

Lemma grid_coord_middle (k : nat) :
  (1 <= k)%nat -> grid_coord (2 * Z.of_nat k + 1) k = 0.
Proof.
  intros Hk. rewrite grid_coord_value by lia.
  replace (2 * Z.of_nat k + 1 - 1)%Z with (2 * Z.of_nat k)%Z by lia.
  rewrite mult_IZR, <- INR_IZR_INZ.
  assert (0 < INR k) by (apply lt_0_INR; lia).
  field. lra.
Qed.

Lemma grid_coord_even_nonzero (k j : nat) :
  grid_coord (2 * Z.of_nat k) j <> 0.
Proof.
  destruct k as [ | k].
  - unfold grid_coord. change (1 <? 2 * Z.of_nat 0)%Z with false.
    cbv iota. lra.
  - rewrite grid_coord_value by lia. intros H0.
    assert (Hd : 0 < IZR (2 * Z.of_nat (S k) - 1)) by (apply IZR_lt; lia).
    assert (H1 : INR j * 16 = 8 * IZR (2 * Z.of_nat (S k) - 1)).
    { assert (Heq : INR j * (16 / IZR (2 * Z.of_nat (S k) - 1)) = 8) by lra.
      rewrite <- Heq. field. lra. }
    assert (H2 : IZR (2 * Z.of_nat j) = IZR (2 * Z.of_nat (S k) - 1)).
    { rewrite mult_IZR, <- INR_IZR_INZ. lra. }
    apply eq_IZR in H2. lia.
Qed.

(* ===================================================================== *)
(** ** Odd and even grids *)
(* ===================================================================== *)

(** On every odd grid (grid size 2k+1, k >= 1) the middle cell is the
    point (0, 0): the relativistic image holds NaN there, and the frame
    0. *)
Lemma odd_grid_origin (k : nat) (phase : R) :
  (1 <= k)%nat ->
  exists s lensed rel glow out,
    GLA.init (2 * Z.of_nat k + 1) = Ok s
    /\ GLA.calculate_lensed_image (Fin phase) s = Ok (lensed, s)
    /\ GLA.apply_relativistic_effects lensed (Fin phase) s = Ok (rel, s)
    /\ GLA.create_photon_sphere_glow (Fin phase) s = Ok (glow, s)
    /\ render_frame (Fin phase) s = Ok (out, s)
    /\ cell (GLA.X s) k k = Some (Fin 0)
    /\ cell (GLA.Y s) k k = Some (Fin 0)
    /\ cell rel k k = Some NaN
    /\ cell (Np.add rel glow) k k = Some NaN
    /\ cell out k k = Some (Fin 0).
Proof.
  intros Hk.
  destruct (constructed_pipeline (2 * Z.of_nat k + 1) (Fin phase) ltac:(lia))
    as (s & lensed & rel & glow & out & H1 & H2 & H3 & H4 & H5 & Hcells).
  exists s, lensed, rel, glow, out. repeat (split; [assumption | ]).
  destruct (Hcells k k ltac:(lia) ltac:(lia))
    as (w & Hx & Hy & _ & _ & _ & Hrel & Hglow & Hout).
  rewrite (grid_coord_middle k Hk) in Hx, Hy, Hrel, Hglow, Hout.
  destruct renderer_black_hole_fields as (HM & Ha & Hrs).
  rewrite (relativistic_value_origin_nan renderer_black_hole 2 (0.8 * 2) HM Ha)
    in Hrel.
  split; [exact Hx | ]. split; [exact Hy | ]. split; [exact Hrel | ]. split.
  - unfold Np.add. rewrite cell_zip2d, Hrel, Hglow. reflexivity.
  - rewrite Hout. unfold final_value. rewrite Hrs.
    rewrite (proj2 (leb_fin_true (radius 0 0) (2 * 2))); [reflexivity | ].
    rewrite radius_on_axis by lra. lra.
Qed.

(** X10.  On the grids of size 2 * 2^m + 1 (3, 5, 9, 17, 33, ...), whose
    spacing is a power of two, the middle cell is the point (0, 0).  For
    every real rotation angle the relativistic image holds NaN there, and
    so does its sum with the glow; the final mask r <= rs then writes 0,
    so the frame itself holds 0 at that cell. *)
Theorem odd_grid_origin_is_masked (m : nat) (phase : R) :
  exists s lensed rel glow out,
    GLA.init (2 * Z.of_nat (2 ^ m) + 1) = Ok s
    /\ GLA.calculate_lensed_image (Fin phase) s = Ok (lensed, s)
    /\ GLA.apply_relativistic_effects lensed (Fin phase) s = Ok (rel, s)
    /\ GLA.create_photon_sphere_glow (Fin phase) s = Ok (glow, s)
    /\ render_frame (Fin phase) s = Ok (out, s)
    /\ cell (GLA.X s) (2 ^ m) (2 ^ m) = Some (Fin 0)
    /\ cell (GLA.Y s) (2 ^ m) (2 ^ m) = Some (Fin 0)
    /\ cell rel (2 ^ m) (2 ^ m) = Some NaN
    /\ cell (Np.add rel glow) (2 ^ m) (2 ^ m) = Some NaN
    /\ cell out (2 ^ m) (2 ^ m) = Some (Fin 0).
Proof.
  apply odd_grid_origin.
  pose proof (Nat.pow_nonzero 2 m ltac:(lia)). lia.
Qed.

(** X11.  On every even grid (grid size 2k; the animation is built with
    200) no cell lies on an axis, so none is the origin: for every real
    rotation angle every cell of the relativistic image is a number in
    [0, 2], every cell of the glow a number in [0, 3], and their sum a
    number at most 5.  No NaN appears anywhere in the pipeline. *)
Theorem even_grid_has_no_nan (k : nat) (phase : R) :
  exists s lensed rel glow,
    GLA.init (2 * Z.of_nat k) = Ok s
    /\ GLA.calculate_lensed_image (Fin phase) s = Ok (lensed, s)
    /\ GLA.apply_relativistic_effects lensed (Fin phase) s = Ok (rel, s)
    /\ GLA.create_photon_sphere_glow (Fin phase) s = Ok (glow, s)
    /\ forall i j, (i < 2 * k)%nat -> (j < 2 * k)%nat ->
         exists x y w c g : R,
           cell (GLA.X s) i j = Some (Fin x) /\ x <> 0
           /\ cell (GLA.Y s) i j = Some (Fin y) /\ y <> 0
           /\ cell lensed i j = Some (Fin w)
           /\ cell rel i j = Some (Fin c) /\ 0 <= c <= 2
           /\ cell glow i j = Some (Fin g) /\ 0 <= g <= 3
           /\ cell (Np.add rel glow) i j = Some (Fin (c + g)).
Proof.
  destruct (constructed_pipeline (2 * Z.of_nat k) (Fin phase) ltac:(lia))
    as (s & lensed & rel & glow & out & H1 & H2 & H3 & H4 & _ & Hcells).
  exists s, lensed, rel, glow. repeat (split; [assumption | ]).
  intros i j Hi Hj.
  destruct (Hcells i j ltac:(lia) ltac:(lia))
    as (w & Hx & Hy & _ & _ & Hl & Hrel & Hglow & _).
  pose proof (grid_coord_even_nonzero k j) as Hxn.
  pose proof (grid_coord_even_nonzero k i) as Hyn.
  set (x := grid_coord (2 * Z.of_nat k) j) in *.
  set (y := grid_coord (2 * Z.of_nat k) i) in *.
  destruct (relativistic_value_off_origin x y w phase (or_introl Hxn))
    as (c & Hc & Hcb & _).
  destruct renderer_black_hole_fields as (_ & _ & Hrs).
  destruct (glow_value_bounds renderer_black_hole (2 * 2) Hrs x y (radius x y) phase)
    as (g & q & _ & _ & _ & _ & Hg & Hgb).
  rewrite Hc in Hrel. rewrite Hg in Hglow.
  exists x, y, w, c, (g * q).
  repeat (split; [assumption | ]).
  unfold Np.add. rewrite cell_zip2d, Hrel, Hglow. reflexivity.
Qed.

(* ===================================================================== *)
(** ** The source position of a pixel *)
(* ===================================================================== *)

(** X12.  Rotating the deflection by the rotation angle keeps its length:
    for every finite position, mass and angle the source position of a
    pixel is finite and lies exactly as far from the pixel as the
    deflection is long; at angle 0 it is the pixel moved by the
    deflection. *)
Theorem source_offset_keeps_length
    (bh : BlackHolePhysics.t) (m x y p : R) :
  BlackHolePhysics.M bh = Fin m ->
  exists dx dy sx sy : R,
    BlackHolePhysics.gravitational_lensing bh (Fin x) (Fin y) = (Fin dx, Fin dy)
    /\ source_position bh (Fin x) (Fin y) (Fin p) = (Fin sx, Fin sy)
    /\ (sx - x) ^ 2 + (sy - y) ^ 2 = dx ^ 2 + dy ^ 2
    /\ (p = 0 -> sx = x + dx /\ sy = y + dy).
Proof.
  intros HM. unfold source_position.
  rewrite (gravitational_lensing_eval bh m HM). cbn [fst snd].
  autorewrite with fv.
  eexists; eexists; eexists; eexists.
  split; [reflexivity | ]. split; [reflexivity | ]. split.
  - pose proof (sin2_cos2 p) as Hsc. unfold Rsqr in Hsc.
    set (dx := - (4 * m / floored x y) * (y / floored x y)).
    set (dy := 4 * m / floored x y * (x / floored x y)).
    replace ((x + (dx * cos p - dy * sin p) - x) ^ 2
             + (y + (dx * sin p + dy * cos p) - y) ^ 2)
      with ((dx ^ 2 + dy ^ 2) * (sin p * sin p + cos p * cos p)) by ring.
    rewrite Hsc. ring.
  - intros ->. rewrite cos_0, sin_0. split; ring.
Qed.

Lemma source_offset_keeps_length_witness :
  exists dx dy sx sy : R,
    source_position renderer_black_hole (Fin 6) (Fin 0) (Fin 1) = (Fin sx, Fin sy)
    /\ (sx - 6) ^ 2 + (sy - 0) ^ 2 = dx ^ 2 + dy ^ 2.
Proof.
  destruct (source_offset_keeps_length renderer_black_hole 2 6 0 1 eq_refl)
    as (dx & dy & sx & sy & _ & Hs & Hlen & _).
  exists dx, dy, sx, sy. split; assumption.
Defined.

(* ===================================================================== *)
(** ** apply_relativistic_effects on any image *)
(* ===================================================================== *)

(** X13.  On every renderer state whose arrays have the shape of the grid
    and whose physics model is the one the constructor sets (mass 2, spin
    0.8), for every image of that shape and every rotation angle,
    [apply_relativistic_effects] raises nothing, leaves the object as it
    is, and returns an image of the same shape, every cell of which is
    either NaN or a number in [0, 2]: an infinite intensity is brought
    back to a limit, NaN alone passes [np.clip]. *)
Theorem relativistic_image_is_clamped
    (s : GLA.t) (image : ndarray) (rotation_angle : fval) :
  well_formed s ->
  GLA.black_hole s = renderer_black_hole ->
  shape image (Z.to_nat (GLA.grid_size s)) (Z.to_nat (GLA.grid_size s)) ->
  exists out,
    GLA.apply_relativistic_effects image rotation_angle s = Ok (out, s)
    /\ shape out (Z.to_nat (GLA.grid_size s)) (Z.to_nat (GLA.grid_size s))
    /\ forall i j,
         (i < Z.to_nat (GLA.grid_size s))%nat ->
         (j < Z.to_nat (GLA.grid_size s))%nat ->
         exists v,
           cell out i j = Some v
           /\ (v = NaN \/ exists c : R, v = Fin c /\ 0 <= c <= 2).
Proof.
  intros Hwf _ Himage.
  destruct (apply_relativistic_effects_cells s rotation_angle image)
    as (out & Hrun & Hshape & Hcells).
  specialize (Hshape Himage Hwf).
  exists out. split; [exact Hrun | ]. split; [exact Hshape | ].
  intros i j Hi Hj.
  destruct (well_formed_cells s i j Hwf Hi Hj) as (x & y & r & Hx & Hy & Hr).
  destruct (shape_cell _ _ _ i j Himage Hi Hj) as [w Hw].
  rewrite (Hcells i j x y r w Hx Hy Hr Hw).
  eexists. split; [reflexivity | ].
  unfold relativistic_value.
  match goal with
  | |- F.clip ?u _ _ = NaN \/ _ => destruct u as [a | | | ]
  end.
  - right. apply clip_bounds; [lra | discriminate].
  - right. apply clip_bounds; [lra | discriminate].
  - right. apply clip_bounds; [lra | discriminate].
  - left. reflexivity.
Qed.

Lemma relativistic_image_is_clamped_witness :
  exists s out,
    GLA.init 3 = Ok s
    /\ GLA.apply_relativistic_effects (GLA.background s) (Fin 0) s = Ok (out, s)
    /\ shape out 3 3
    /\ exists v,
         cell out 0 2 = Some v
         /\ (v = NaN \/ exists c : R, v = Fin c /\ 0 <= c <= 2).
Proof.
  destruct (init_cells 3 ltac:(lia)) as (s & Hinit & Hsize & Hbh & Hwf & _).
  pose proof Hwf as (_ & _ & _ & _ & Hbg).
  destruct (relativistic_image_is_clamped s (GLA.background s) (Fin 0)
              Hwf Hbh Hbg) as (out & Hrun & Hshape & Hcells).
  rewrite Hsize in Hshape, Hcells.
  exists s, out.
  exact (conj Hinit (conj Hrun (conj Hshape
           (Hcells 0%nat 2%nat ltac:(lia) ltac:(lia))))).
Defined.

(* ===================================================================== *)
(** ** The frame between the horizon and its margin, and outside *)
(* ===================================================================== *)

Lemma glow_value_positive (x y r p : R) :
  exists g : R,
    glow_value renderer_black_hole (Fin x) (Fin y) (Fin r) (Fin p) = Fin g
    /\ 0 < g <= 3.
Proof.
  destruct renderer_black_hole_fields as (_ & _ & Hrs).
  destruct (glow_value_bounds renderer_black_hole (2 * 2) Hrs x y r p)
    as (g & q & _ & Hg & _ & Hq & Hgq & Hb).
  exists (g * q). split; [exact Hgq | ]. split; [nra | lra].
Qed.

(** X14.  Between the horizon and the margin of the lensing step
    (rs < r < 1.1 rs, that is 4 < r < 4.4) the lensed image and the
    relativistic image are 0, so the frame shows the photon ring alone: the
    cell of the frame equals the cell of the glow, a number in (0, 3]. *)
Theorem margin_shows_only_the_glow (n : Z) (phase : R) :
  (0 <= n)%Z ->
  exists s lensed rel glow out,
    GLA.init n = Ok s
    /\ GLA.calculate_lensed_image (Fin phase) s = Ok (lensed, s)
    /\ GLA.apply_relativistic_effects lensed (Fin phase) s = Ok (rel, s)
    /\ GLA.create_photon_sphere_glow (Fin phase) s = Ok (glow, s)
    /\ render_frame (Fin phase) s = Ok (out, s)
    /\ forall i j, (i < Z.to_nat n)%nat -> (j < Z.to_nat n)%nat ->
         4 < radius (grid_coord n j) (grid_coord n i) < 4.4 ->
         exists g : R,
           cell lensed i j = Some (Fin 0)
           /\ cell rel i j = Some (Fin 0)
           /\ cell glow i j = Some (Fin g)
           /\ cell out i j = Some (Fin g)
           /\ 0 < g <= 3.
Proof.
  intros Hn.
  destruct (constructed_pipeline n (Fin phase) Hn)
    as (s & lensed & rel & glow & out & H1 & H2 & H3 & H4 & H5 & Hcells).
  exists s, lensed, rel, glow, out. repeat (split; [assumption | ]).
  intros i j Hi Hj [Hlo Hhi].
  destruct (Hcells i j Hi Hj) as (w & _ & _ & _ & Hw & Hl & Hrel & Hglow & Hout).
  set (x := grid_coord n j) in *. set (y := grid_coord n i) in *.
  destruct renderer_black_hole_fields as (HM & Ha & Hrs).
  assert (Hbh : GLA.black_hole s = renderer_black_hole).
  { destruct (init_cells n Hn) as (s' & Hinit' & _ & Hbh' & _).
    assert (s' = s) by congruence. now subst s'. }
  assert (Hw0 : w = 0).
  { unfold lensed_value in Hw. rewrite Hbh, Hrs in Hw.
    rewrite mul_fin in Hw.
    rewrite (proj2 (ltb_fin_true (radius x y) (2 * 2 * 1.1))) in Hw by lra.
    injection Hw as <-. reflexivity. }
  subst w.
  assert (Hxy : x <> 0 \/ y <> 0).
  { destruct (Req_dec_T x 0) as [Hx0 | ]; [ | now left].
    destruct (Req_dec_T y 0) as [Hy0 | ]; [ | now right].
    rewrite Hx0, Hy0, radius_on_axis in Hlo by lra. lra. }
  destruct (relativistic_value_off_origin x y 0 phase Hxy) as (c & Hc & _ & Hc0).
  rewrite (Hc0 eq_refl) in Hc.
  destruct (glow_value_positive x y (radius x y) phase) as (g & Hg & Hgb).
  exists g. rewrite Hout, Hrel, Hl, Hglow, Hg, Hc.
  repeat (split; [reflexivity | ]). split; [ | exact Hgb].
  unfold final_value. rewrite Hrs, Hc, Hg.
  rewrite (proj2 (leb_fin_false (radius x y) (2 * 2))) by lra.
  rewrite add_fin. do 2 f_equal. lra.
Qed.

(** On the 17 x 17 grid the cell of row 9 and column 12 is the point
    (4, 1), at radius sqrt 17, between the horizon and its margin. *)
Lemma grid_17_cell_9_12 :
  grid_coord 17 12 = 4 /\ grid_coord 17 9 = 1
  /\ 4 < radius 4 1 < 4.4.
Proof.
  unfold grid_coord. change (1 <? 17)%Z with true. change (17 - 1)%Z with 16%Z.
  cbn [INR]. split; [lra | ]. split; [lra | ].
  unfold radius. split.
  - rewrite <- (sqrt_sq_nonneg 4) at 1 by lra. apply sqrt_lt_1_alt. lra.
  - rewrite <- (sqrt_sq_nonneg 4.4) by lra. apply sqrt_lt_1_alt. lra.
Qed.

Lemma margin_shows_only_the_glow_witness :
  exists s lensed rel glow out g,
    GLA.init 17 = Ok s
    /\ GLA.calculate_lensed_image (Fin 0) s = Ok (lensed, s)
    /\ GLA.apply_relativistic_effects lensed (Fin 0) s = Ok (rel, s)
    /\ GLA.create_photon_sphere_glow (Fin 0) s = Ok (glow, s)
    /\ render_frame (Fin 0) s = Ok (out, s)
    /\ 4 < radius (grid_coord 17 12) (grid_coord 17 9) < 4.4
    /\ cell lensed 9 12 = Some (Fin 0)
    /\ cell rel 9 12 = Some (Fin 0)
    /\ cell glow 9 12 = Some (Fin g)
    /\ cell out 9 12 = Some (Fin g)
    /\ 0 < g <= 3.
Proof.
  destruct (margin_shows_only_the_glow 17 0 ltac:(lia))
    as (s & lensed & rel & glow & out & H1 & H2 & H3 & H4 & H5 & Hcells).
  assert (Hr : 4 < radius (grid_coord 17 12) (grid_coord 17 9) < 4.4).
  { destruct grid_17_cell_9_12 as (-> & -> & Hr). exact Hr. }
  destruct (Hcells 9%nat 12%nat ltac:(lia) ltac:(lia) Hr)
    as (g & Hl & Hrel & Hglow & Hout & Hg).
  exists s, lensed, rel, glow, out, g.
  exact (conj H1 (conj H2 (conj H3 (conj H4 (conj H5 (conj Hr (conj Hl
           (conj Hrel (conj Hglow (conj Hout Hg)))))))))).
Defined.




(* ===================================================================== *)
(** ** Edge cases: a rotation angle that is not a number, an empty grid *)
(* ===================================================================== *)

Lemma add_nan_r (x : fval) : (x + NaN)%fv = NaN.
Proof. destruct x; reflexivity. Qed.

Lemma source_position_nonfinite (bh : BlackHolePhysics.t) (x y rot : fval) :
  (forall p : R, rot <> Fin p) ->
  source_position bh x y rot = (NaN, NaN).
Proof.
  intros Hrot.
  assert (Hc : F.cos rot = NaN).
  { destruct rot as [p | | | ]; [now contradiction (Hrot p) | | | ]; reflexivity. }
  assert (Hs : F.sin rot = NaN).
  { destruct rot as [p | | | ]; [now contradiction (Hrot p) | | | ]; reflexivity. }
  unfold source_position. rewrite Hc, Hs, !mul_nan_r.
  change (NaN - NaN)%fv with NaN. change (NaN + NaN)%fv with NaN.
  now rewrite !add_nan_r.
Qed.

(** X16.  With a rotation angle that is NaN or infinite, every source
    position is NaN, no comparison [abs(sx) < 8] holds, and
    [calculate_lensed_image] returns an image of zeros, without raising:
    [int()] is never reached.  This holds in every renderer state. *)
Theorem lensed_image_black_for_nonfinite_angle
    (s : GLA.t) (rotation_angle : fval) :
  well_formed s ->
  (forall p : R, rotation_angle <> Fin p) ->
  exists img,
    GLA.calculate_lensed_image rotation_angle s = Ok (img, s)
    /\ shape img (Z.to_nat (GLA.grid_size s)) (Z.to_nat (GLA.grid_size s))
    /\ forall i j,
         (i < Z.to_nat (GLA.grid_size s))%nat ->
         (j < Z.to_nat (GLA.grid_size s))%nat ->
         cell img i j = Some (Fin 0).
Proof.
  intros Hwf Hrot.
  destruct (calculate_lensed_image_cells s Hwf rotation_angle)
    as (img & Hrun & Hshape & Hcells).
  exists img. split; [exact Hrun | ]. split; [exact Hshape | ].
  intros i j Hi Hj.
  destruct (well_formed_cells s i j Hwf Hi Hj) as (x & y & r & Hx & Hy & Hr).
  rewrite (Hcells i j x y r Hx Hy Hr).
  rewrite (source_position_nonfinite _ x y rotation_angle Hrot). cbn [fst snd].
  unfold lensed_value. destruct (F.ltb r _); reflexivity.
Qed.

Lemma lensed_image_black_for_nonfinite_angle_witness :
  exists s, GLA.init 1 = Ok s
    /\ exists img,
         GLA.calculate_lensed_image PInf s = Ok (img, s)
         /\ cell img 0%nat 0%nat = Some (Fin 0).
Proof.
  destruct (init_cells 1 ltac:(lia)) as (s & Hinit & Hsize & _ & Hwf & _).
  exists s. split; [exact Hinit | ].
  destruct (lensed_image_black_for_nonfinite_angle s PInf Hwf)
    as (img & Hrun & _ & Hcells).
  - intros p. discriminate.
  - exists img. split; [exact Hrun | ].
    apply Hcells; rewrite Hsize; cbn; lia.
Defined.

(** X17.  With [grid_size = 0] the constructor succeeds with empty arrays,
    and every step of the pipeline returns the empty image, for every
    rotation angle. *)
Theorem empty_grid_renders_empty_frame (rotation_angle : fval) :
  exists s,
    GLA.init 0 = Ok s
    /\ GLA.X s = [] /\ GLA.Y s = [] /\ GLA.R s = [] /\ GLA.background s = []
    /\ GLA.calculate_lensed_image rotation_angle s = Ok ([], s)
    /\ GLA.apply_relativistic_effects [] rotation_angle s = Ok ([], s)
    /\ GLA.create_photon_sphere_glow rotation_angle s = Ok ([], s)
    /\ render_frame rotation_angle s = Ok ([], s).
Proof.
  exists (GLA.mk renderer_black_hole 0 [] [] [] []).
  split; [reflexivity | ].
  do 4 (split; [reflexivity | ]).
  assert (Hlensed : GLA.calculate_lensed_image rotation_angle
                      (GLA.mk renderer_black_hole 0 [] [] [] [])
                    = Ok ([], GLA.mk renderer_black_hole 0 [] [] [] []))
    by reflexivity.
  assert (Hrel : GLA.apply_relativistic_effects [] rotation_angle
                   (GLA.mk renderer_black_hole 0 [] [] [] [])
                 = Ok ([], GLA.mk renderer_black_hole 0 [] [] [] []))
    by reflexivity.
  assert (Hglow : GLA.create_photon_sphere_glow rotation_angle
                    (GLA.mk renderer_black_hole 0 [] [] [] [])
                  = Ok ([], GLA.mk renderer_black_hole 0 [] [] [] []))
    by reflexivity.
  repeat (split; [assumption | ]).
  unfold render_frame, Method.bind. rewrite Hlensed, Hrel, Hglow. reflexivity.
Qed.

(* ===================================================================== *)
(** ** Periods in the rotation angle *)
(* ===================================================================== *)

Lemma map2d_ext {A B} (f g : A -> B) (a : list (list A)) :
  (forall x, f x = g x) -> Np.map2d f a = Np.map2d g a.
Proof.
  intros Hfg. unfold Np.map2d.
  apply list_fmap_ext. intros _ row _.
  apply list_fmap_ext. intros _ x _. apply Hfg.
Qed.

Lemma map2d_map2d {A B C} (f : A -> B) (g : B -> C) (a : list (list A)) :
  Np.map2d g (Np.map2d f a) = Np.map2d (fun x => g (f x)) a.
Proof.
  unfold Np.map2d. rewrite <- list_fmap_compose.
  apply list_fmap_ext. intros _ row _. cbn.
  now rewrite <- list_fmap_compose.
Qed.

Lemma zip2d_ext {A B C} (f g : A -> B -> C)
    (a : list (list A)) (b : list (list B)) :
  (forall x y, f x y = g x y) -> Np.zip2d f a b = Np.zip2d g a b.
Proof.
  intros Hfg. unfold Np.zip2d.
  revert b. induction a as [ | ra a IH]; intros [ | rb b]; cbn; try reflexivity.
  f_equal; [ | apply IH].
  revert rb. induction ra as [ | x ra IHr]; intros [ | y rb]; cbn;
    try reflexivity.
  f_equal; [apply Hfg | apply IHr].
Qed.

Lemma sin_shift_turn (x : R) : sin (x + 2 * PI) = sin x.
Proof. rewrite sin_plus, sin_2PI, cos_2PI. ring. Qed.

Lemma cos_shift_turn (x : R) : cos (x + 2 * PI) = cos x.
Proof. rewrite cos_plus, sin_2PI, cos_2PI. ring. Qed.

(** Adding a finite angle, then taking the sine, has period 2 pi in that
    angle, whatever the other summand. *)
Lemma sin_add_period (u : fval) (p : R) :
  F.sin (u + Fin (p + 2 * PI))%fv = F.sin (u + Fin p)%fv.
Proof.
  destruct u as [a | | | ]; try reflexivity.
  autorewrite with fv. f_equal.
  replace (a + (p + 2 * PI)) with (a + p + 2 * PI) by ring.
  apply sin_shift_turn.
Qed.

(** X18.  The photon ring turns four times as fast as the scene: in exact
    arithmetic [create_photon_sphere_glow] has period pi/2 in the rotation
    angle, in every renderer state. *)
Theorem photon_glow_quarter_turn_period (s : GLA.t) (phase : R) :
  GLA.create_photon_sphere_glow (Fin (phase + PI / 2)) s
  = GLA.create_photon_sphere_glow (Fin phase) s.
Proof.
  unfold GLA.create_photon_sphere_glow, Method.bind, Method.get, Method.ret.
  cbv beta iota zeta. do 3 f_equal.
  unfold Np.sadd, Np.smul, Np.sin, Np.adds.
  rewrite !map2d_map2d. apply map2d_ext. intros u. do 2 f_equal.
  rewrite !mul_fin.
  replace ((phase + PI / 2) * 4) with (phase * 4 + 2 * PI) by field.
  apply sin_add_period.
Qed.

Lemma doppler_shift_period (bh : BlackHolePhysics.t) (x y : fval) (p : R) :
  BlackHolePhysics.doppler_shift bh x y (Fin (p + 2 * PI))
  = BlackHolePhysics.doppler_shift bh x y (Fin p).
Proof.
  unfold BlackHolePhysics.doppler_shift. now rewrite sin_add_period.
Qed.

(** X19.  In exact arithmetic one full turn of the rotation angle brings
    back the same frame: [render_frame] has period 2 pi, in every renderer
    state, and so have the three steps it is made of. *)
Theorem render_full_turn_period (s : GLA.t) (image : ndarray) (phase : R) :
  GLA.calculate_lensed_image (Fin (phase + 2 * PI)) s
    = GLA.calculate_lensed_image (Fin phase) s
  /\ GLA.apply_relativistic_effects image (Fin (phase + 2 * PI)) s
    = GLA.apply_relativistic_effects image (Fin phase) s
  /\ GLA.create_photon_sphere_glow (Fin (phase + 2 * PI)) s
    = GLA.create_photon_sphere_glow (Fin phase) s
  /\ render_frame (Fin (phase + 2 * PI)) s = render_frame (Fin phase) s.
Proof.
  assert (Hlensed : forall st,
            GLA.calculate_lensed_image (Fin (phase + 2 * PI)) st
            = GLA.calculate_lensed_image (Fin phase) st).
  { intros st. unfold GLA.calculate_lensed_image.
    now rewrite !cos_fin, !sin_fin, cos_shift_turn, sin_shift_turn. }
  assert (Hrel : forall img st,
            GLA.apply_relativistic_effects img (Fin (phase + 2 * PI)) st
            = GLA.apply_relativistic_effects img (Fin phase) st).
  { intros img st.
    unfold GLA.apply_relativistic_effects, BlackHolePhysics.doppler_shift_nd,
      Method.bind, Method.get.
    cbv beta iota zeta.
    rewrite (zip2d_ext _ _ (GLA.X st) (GLA.Y st)
               (fun u v => doppler_shift_period (GLA.black_hole st) u v phase)).
    reflexivity. }
  assert (Hglow : forall st,
            GLA.create_photon_sphere_glow (Fin (phase + 2 * PI)) st
            = GLA.create_photon_sphere_glow (Fin phase) st).
  { intros st.
    unfold GLA.create_photon_sphere_glow, Method.bind, Method.get, Method.ret.
    cbv beta iota zeta. do 3 f_equal.
    unfold Np.sadd, Np.smul, Np.sin, Np.adds.
    rewrite !map2d_map2d. apply map2d_ext. intros u. do 2 f_equal.
    rewrite !mul_fin.
    replace ((phase + 2 * PI) * 4)
      with (phase * 4 + 2 * PI + 2 * PI + 2 * PI + 2 * PI) by ring.
    now rewrite !sin_add_period. }
  split; [apply Hlensed | ]. split; [apply Hrel | ]. split; [apply Hglow | ].
  unfold render_frame, Method.bind. rewrite Hlensed.
  destruct (GLA.calculate_lensed_image (Fin phase) s) as [[lensed s1] | e];
    [ | reflexivity].
  rewrite Hrel.
  destruct (GLA.apply_relativistic_effects lensed (Fin phase) s1)
    as [[rel s2] | e]; [ | reflexivity].
  now rewrite Hglow.
Qed.

(* ===================================================================== *)
(** ** The horizon and the lookup on small grids *)
(* ===================================================================== *)

(** On the 3 x 3 grid the middle cell is the origin, inside the horizon:
    it is 0 in the lensed image and in the frame. *)
Lemma horizon_cells_are_zero_witness :
  exists s lensed out,
    GLA.init 3 = Ok s
    /\ GLA.calculate_lensed_image (Fin 0) s = Ok (lensed, s)
    /\ render_frame (Fin 0) s = Ok (out, s)
    /\ cell (GLA.R s) 1 1 = Some (Fin 0)
    /\ F.leb (Fin 0) (BlackHolePhysics.rs (GLA.black_hole s)) = true
    /\ F.ltb (Fin 0) (BlackHolePhysics.rs (GLA.black_hole s) * Fin 1.1)%fv = true
    /\ cell out 1 1 = Some (Fin 0)
    /\ cell lensed 1 1 = Some (Fin 0).
Proof.
  destruct (init_cells 3 ltac:(lia)) as (s & Hinit & _ & Hbh & Hwf & Hgrid).
  destruct (horizon_cells_are_zero s (Fin 0) Hwf)
    as (lensed & out & Hrun1 & Hrun & Hcells).
  destruct (Hgrid 1%nat 1%nat ltac:(lia) ltac:(lia)) as (_ & _ & HR & _).
  rewrite grid_3_cell_1_1, radius_on_axis in HR by lra.
  destruct renderer_black_hole_fields as (_ & _ & Hrs).
  fold renderer_black_hole in Hbh.
  assert (Hleb : F.leb (Fin 0) (BlackHolePhysics.rs (GLA.black_hole s)) = true).
  { rewrite Hbh, Hrs. apply leb_fin_true. lra. }
  assert (Hltb : F.ltb (Fin 0)
                   (BlackHolePhysics.rs (GLA.black_hole s) * Fin 1.1)%fv = true).
  { rewrite Hbh, Hrs, mul_fin. apply ltb_fin_true. lra. }
  destruct (Hcells 1%nat 1%nat (Fin 0) HR) as [Hout Hlensed].
  exists s, lensed, out.
  exact (conj Hinit (conj Hrun1 (conj Hrun (conj HR (conj Hleb (conj Hltb
           (conj (Hout Hleb) (Hlensed Hltb)))))))).
Defined.

Lemma trunc_between (r : R) (z : Z) :
  0 <= r -> IZR z <= r < IZR z + 1 -> Np.trunc r = z.
Proof.
  intros H0 [Hlo Hhi]. unfold Np.trunc. destruct (Rle_dec 0 r); [ | lra].
  symmetry. apply Int_part_spec. lra.
Qed.

(** On the 5 x 5 grid the cell of row 3 and column 3 is the point (4, 4),
    outside the horizon margin. *)
Lemma grid_5_cell_3 : grid_coord 5 3 = 4.
Proof.
  unfold grid_coord. change (1 <? 5)%Z with true. change (5 - 1)%Z with 4%Z.
  cbn [INR]. lra.
Qed.

Lemma radius_4_4 : 4.4 <= radius 4 4 /\ radius 4 4 * radius 4 4 = 32.
Proof.
  unfold radius. split.
  - rewrite <- (sqrt_sq_nonneg 4.4) by lra. apply sqrt_le_1_alt. lra.
  - rewrite sqrt_sqrt; lra.
Qed.

(** At rotation angle 0 the light seen at (4, 4) comes from (3, 5). *)
Lemma source_position_4_4 :
  source_position renderer_black_hole (Fin 4) (Fin 4) (Fin 0) = (Fin 3, Fin 5).
Proof.
  destruct radius_4_4 as [Hlo Hsq].
  unfold source_position.
  rewrite (gravitational_lensing_eval renderer_black_hole 2 eq_refl).
  cbn [fst snd]. autorewrite with fv. rewrite cos_0, sin_0.
  unfold floored. rewrite Rmax_left by lra.
  set (f := radius 4 4) in *.
  assert (Hone : 4 * 2 / f * (4 / f) = 1).
  { replace (4 * 2 / f * (4 / f)) with (32 / (f * f)) by (field; lra).
    rewrite Hsq. lra. }
  f_equal; f_equal.
  - replace (- (4 * 2 / f) * (4 / f)) with (- (4 * 2 / f * (4 / f))) by ring.
    rewrite Hone. lra.
  - replace (- (4 * 2 / f) * (4 / f)) with (- (4 * 2 / f * (4 / f))) by ring.
    rewrite Hone. lra.
Qed.

Lemma exact_index_5 :
  exact_index 5 (Fin 3) = Ok 3%Z /\ exact_index 5 (Fin 5) = Ok 4%Z.
Proof.
  unfold exact_index. autorewrite with fv. rewrite !div_fin by lra.
  cbn [Np.int]. split; f_equal; apply trunc_between; cbn [IZR IPR IPR_2]; lra.
Qed.

(** On the 5 x 5 grid at rotation angle 0, the cell (3, 3) has its source
    at (3, 5), the indices computed are 3 and 4, and the cell shows the
    background at row 4, column 3; with an index computation that yields
    N = 5, as rounding can near the edge, the same cell stays 0. *)
Lemma background_lookup_is_safe_witness :
  exists s img img',
    GLA.init 5 = Ok s
    /\ cell (fst (source_arrays s (Fin 0))) 3 3 = Some (Fin 3)
    /\ cell (snd (source_arrays s (Fin 0))) 3 3 = Some (Fin 5)
    /\ exact_index 5 (Fin 3) = Ok 3%Z
    /\ exact_index 5 (Fin 5) = Ok 4%Z
    /\ GLA.calculate_lensed_image (Fin 0) s = Ok (img, s)
    /\ cell img 3 3 = cell (GLA.background s) 4 3
    /\ lensed_loops_with (fun n _ => Ok n)
         (fst (source_arrays s (Fin 0))) (snd (source_arrays s (Fin 0))) s
       = Ok (img', s)
    /\ cell img' 3 3 = Some (Fin 0).
Proof.
  destruct (init_cells 5 ltac:(lia)) as (s & Hinit & Hsize & Hbh & Hwf & Hgrid).
  destruct (Hgrid 3%nat 3%nat ltac:(lia) ltac:(lia)) as (HX & HY & HR & _).
  rewrite grid_5_cell_3 in HX, HY, HR.
  fold renderer_black_hole in Hbh.
  destruct (source_arrays_cell s (Fin 0) 3%nat 3%nat (Fin 4) (Fin 4) HX HY)
    as [Hcx Hcy].
  rewrite Hbh, source_position_4_4 in Hcx, Hcy. cbn [fst snd] in Hcx, Hcy.
  destruct (source_arrays_shape s Hwf (Fin 0)) as [Hsx Hsy].
  destruct exact_index_5 as [Hix Hiy].
  destruct radius_4_4 as [Hlo _].
  destruct renderer_black_hole_fields as (_ & _ & Hrs).
  assert (Hthr : F.ltb (Fin (radius 4 4))
                   (BlackHolePhysics.rs (GLA.black_hole s) * Fin 1.1)%fv = false).
  { rewrite Hbh, Hrs, mul_fin. apply ltb_fin_false. lra. }
  assert (Hdom : in_domain (Fin 3) (Fin 5) = true).
  { unfold in_domain. rewrite !abs_fin, !Rabs_pos_eq by lra.
    rewrite !(proj2 (ltb_fin_true _ _)) by lra. reflexivity. }
  destruct (background_lookup_is_safe s exact_index _ _ Hwf
              (exact_index_total _) Hsx Hsy) as [(img & Hrun & Hcells) _].
  destruct (Hcells 3%nat 3%nat (Fin 3) (Fin 5) (Fin (radius 4 4)) Hcx Hcy HR)
    as (v & Hv & _ & _ & _ & Hread).
  rewrite Hsize in Hread.
  specialize (Hread Hthr Hdom 3%Z 4%Z Hix Hiy eq_refl).
  change (Z.to_nat 4) with 4%nat in Hread.
  change (Z.to_nat 3) with 3%nat in Hread.
  assert (Htot' : index_total (fun (n : Z) (_ : fval) => Ok n) (GLA.grid_size s)).
  { intros w _. eexists. reflexivity. }
  destruct (background_lookup_is_safe s (fun n _ => Ok n) _ _ Hwf Htot' Hsx Hsy)
    as [(img' & Hrun' & Hcells') _].
  destruct (Hcells' 3%nat 3%nat (Fin 3) (Fin 5) (Fin (radius 4 4)) Hcx Hcy HR)
    as (v' & Hv' & _ & Hout & _).
  rewrite Hsize in Hout. specialize (Hout 5%Z 5%Z eq_refl eq_refl eq_refl).
  subst v'.
  exists s, img, img'.
  rewrite calculate_lensed_image_is_loops.
  refine (conj Hinit (conj Hcx (conj Hcy (conj Hix (conj Hiy (conj Hrun
            (conj _ (conj Hrun' Hv')))))))).
  rewrite Hv, Hread. reflexivity.
Defined.
